(** * textureatlas: a shallow embedding of the rectangle packer, the
    auto-growth loop and the two map codecs, with the properties of the
    specification stated against it.

    Python integers are unbounded, hence [Z].  A [Rect] handed to [pack] is a
    mutable object: [pack] writes its position and the region keeps the
    reference.  Packable rectangles therefore live in a store indexed by
    references, and the region tree records references to its occupants.

    The packer is embedded twice.  [pack] works on a tree of rectangles: it
    is the packer for packables that are not regions of the tree they are
    packed into, which is the case of every call made by [main].  A
    [PackRegion] is a [Rect] too, so a caller of the class can also offer a
    region of the tree to [pack]; [Objects.pack] keeps every region in the
    store and covers these calls as well.  [pack_erase] relates the two. *)

From Stdlib Require Import ZArith Lia ZifyBool Strings.Byte.
From stdpp Require Import base numbers functions option list.

Open Scope Z_scope.

(** ** Rect *)

Record Rect : Type := mkRect { x : Z; y : Z; width : Z; height : Z }.

Definition perimeter (r : Rect) : Z := 2 * (width r + height r).

Definition area (r : Rect) : Z := width r * height r.

(** ** The store of packable rectangles *)

(** A reference is a natural number; every reference denotes an object. *)
Abbreviation ref := nat (only parsing).
Abbreviation Store := (ref -> Rect) (only parsing).

(** [packable.x, packable.y = nx, ny] *)
Definition set_pos (r : Rect) (nx ny : Z) : Rect :=
  mkRect nx ny (width r) (height r).

(** ** PackRegion *)

Inductive PackRegion : Type :=
| Free (r : Rect)
| Occupied (r : Rect) (packable : ref) (subregion_1 subregion_2 : PackRegion).

Definition rect_of (self : PackRegion) : Rect :=
  match self with
  | Free r => r
  | Occupied r _ _ _ => r
  end.

Definition is_free (self : PackRegion) : bool :=
  match self with
  | Free _ => true
  | Occupied _ _ _ _ => false
  end.

(** [PackRegion.pack]: the result is the returned boolean together with the
    store and the region tree as the call leaves them.  The second branch of
    [a.pack(p) or b.pack(p)] runs in the state left by the first. *)
Fixpoint pack (self : PackRegion) (packable : ref) (σ : Store)
  : bool * Store * PackRegion :=
  match self with
  | Free r =>
      if (width (σ packable) >? width r) || (height (σ packable) >? height r)
      then (false, σ, self)
      else
        let σ' := <[packable := set_pos (σ packable) (x r) (y r)]> σ in
        let p := σ' packable in
        (true, σ',
         Occupied r packable
           (Free (mkRect (x r) (y r + height p) (width p) (height r - height p)))
           (Free (mkRect (x r + width p) (y r) (width r - width p) (height r))))
  | Occupied r q s1 s2 =>
      if perimeter (rect_of s1) >? perimeter (rect_of s2) then
        let '(b1, σ1, s1') := pack s1 packable σ in
        if b1 then (true, σ1, Occupied r q s1' s2)
        else
          let '(b2, σ2, s2') := pack s2 packable σ1 in
          (b2, σ2, Occupied r q s1' s2')
      else
        let '(b2, σ2, s2') := pack s2 packable σ in
        if b2 then (true, σ2, Occupied r q s1 s2')
        else
          let '(b1, σ1, s1') := pack s1 packable σ2 in
          (b1, σ1, Occupied r q s1' s2')
  end.

(** [PackRegion.get_free_regions] *)
Fixpoint get_free_regions (self : PackRegion) : list PackRegion :=
  match self with
  | Free _ => [self]
  | Occupied _ _ s1 s2 => get_free_regions s1 ++ get_free_regions s2
  end.

(** The occupants of a tree, as the store shows them. *)
Fixpoint occupant_refs (self : PackRegion) : list ref :=
  match self with
  | Free _ => []
  | Occupied _ q s1 s2 => q :: occupant_refs s1 ++ occupant_refs s2
  end.

Definition occupants (σ : Store) (self : PackRegion) : list Rect :=
  map σ (occupant_refs self).

(** A sequence of [pack] calls on one tree, all of which must succeed. *)
Fixpoint pack_seq (self : PackRegion) (σ : Store) (ps : list ref)
  : option (Store * PackRegion) :=
  match ps with
  | [] => Some (σ, self)
  | p :: ps' =>
      match pack self p σ with
      | (true, σ', self') => pack_seq self' σ' ps'
      | (false, _, _) => None
      end
  end.

(** ** Geometry of rectangles as sets of pixels *)

Definition inside (r : Rect) (px py : Z) : Prop :=
  x r <= px < x r + width r /\ y r <= py < y r + height r.

Definition overlap (a b : Rect) : Prop :=
  exists px py, inside a px py /\ inside b px py.

Definition within (a b : Rect) : Prop :=
  forall px py, inside a px py -> inside b px py.

(** The rectangles the tiling invariant speaks about. *)
Definition pieces (σ : Store) (self : PackRegion) : list Rect :=
  occupants σ self ++ map rect_of (get_free_regions self).

Definition total_area (l : list Rect) : Z := foldr (fun r acc => area r + acc) 0 l.

Definition pairwise_disjoint (l : list Rect) : Prop :=
  ForallOrdPairs (fun a b => ~ overlap a b) l.

Definition tiles (σ : Store) (self : PackRegion) : Prop :=
  total_area (pieces σ self) = area (rect_of self)
  /\ pairwise_disjoint (pieces σ self)
  /\ Forall (fun p => within p (rect_of self)) (pieces σ self).

(** ** Frame

    A [Frame] is a [Rect] created at the origin with the size the image
    library reports for its file.  The image library is outside the
    repository: [image_size f] stands for [Image.open(f).size], [None] when
    [Image.open] raises. *)

Definition filename : Type := list N.

Record Frame : Type := mkFrame { frame_filename : filename; frame_rect : Rect }.

Section FrameConstruction.
Variable image_size : filename -> option (Z * Z).

(** [Frame.__init__] *)
Definition Frame_init (f : filename) : option Frame :=
  match image_size f with
  | None => None
  | Some (w, h) => Some (mkFrame f (mkRect 0 0 w h))
  end.
End FrameConstruction.

(** ** Texture and TextureAtlas

    A Python [str] is a sequence of code points; [frames] holds references to
    the frame objects in the store. *)

Record Texture : Type := mkTexture { name : list N; frames : list ref }.

(** [TextureAtlas] is the root [PackRegion] extended with the list of
    textures handed to [pack_texture]. *)
Record TextureAtlas : Type :=
  mkAtlas { region : PackRegion; textures : list Texture }.

Definition atlas_width (a : TextureAtlas) : Z := width (rect_of (region a)).
Definition atlas_height (a : TextureAtlas) : Z := height (rect_of (region a)).

(** [TextureAtlas.__init__] *)
Definition TextureAtlas_init (w h : Z) : TextureAtlas :=
  mkAtlas (Free (mkRect 0 0 w h)) [].

(** The [for frame in texture.frames] loop of [pack_texture]. *)
Fixpoint pack_frames (reg : PackRegion) (fs : list ref) (σ : Store)
  : bool * Store * PackRegion :=
  match fs with
  | [] => (true, σ, reg)
  | f :: fs' =>
      let '(ok, σ', reg') := pack reg f σ in
      if ok then pack_frames reg' fs' σ' else (false, σ', reg')
  end.

(** [TextureAtlas.pack_texture] *)
Definition pack_texture (self : TextureAtlas) (texture : Texture) (σ : Store)
  : bool * Store * TextureAtlas :=
  let '(ok, σ', reg') := pack_frames (region self) (frames texture) σ in
  (ok, σ', mkAtlas reg' (textures self ++ [texture])).

(** ** The driver: sort and auto-growth loop *)

(** Python's [max(iterable, key=...)]: the first item with the largest key,
    [None] for the [ValueError] on an empty iterable. *)
Fixpoint max_by {A : Type} (key : A -> Z) (l : list A) : option A :=
  match l with
  | [] => None
  | a :: l' =>
      match max_by key l' with
      | None => Some a
      | Some b => if key b >? key a then Some b else Some a
      end
  end.

(** The sort key [t.frames[0].perimeter]; [None] for the [IndexError] of a
    texture without frames. *)
Definition first_frame_perimeter (σ : Store) (t : Texture) : option Z :=
  f ← head (frames t); Some (perimeter (σ f)).

(** Python's [sorted(..., key=..., reverse=True)], a stable sort: the keys are
    computed once, and items with equal keys keep their input order. *)
Fixpoint insert_desc {A : Type} (k : Z) (a : A) (l : list (Z * A))
  : list (Z * A) :=
  match l with
  | [] => [(k, a)]
  | (k', a') :: l' =>
      if k' >? k then (k', a') :: insert_desc k a l' else (k, a) :: l
  end.

Definition sort_desc {A : Type} (l : list (Z * A)) : list (Z * A) :=
  foldr (fun ka acc => insert_desc (fst ka) (snd ka) acc) [] l.

Definition sorted_reverse {A : Type} (key : A -> option Z) (l : list A)
  : option (list A) :=
  ks ← mapM key l; Some (map snd (sort_desc (zip ks l))).

Inductive outcome (A : Type) : Type :=
| Done (a : A)
| Raised
| OutOfFuel.
Arguments Done {A} a.
Arguments Raised {A}.
Arguments OutOfFuel {A}.

(** What one pass of [for texture in textures] does to the loop state. *)
Inductive pass_result : Type :=
| AllPacked (σ : Store) (atlas : TextureAtlas)
| Grown (σ : Store) (w h : Z)
| PassRaised.

(** The growth step taken when [pack_texture] returned false. *)
Definition grow (σ : Store) (atlas : TextureAtlas) (texture : Texture)
    (w h : Z) : option (Z * Z) :=
  biggest_free_space ← max_by (fun r => perimeter (rect_of r))
                               (get_free_regions (region atlas));
  f0 ← head (frames texture);
  Some (if width (rect_of biggest_free_space) <? width (σ f0)
        then (w + width (σ f0), h)
        else (w, h + height (σ f0))).

Fixpoint for_textures (atlas : TextureAtlas) (ts : list Texture) (σ : Store)
    (w h : Z) : pass_result :=
  match ts with
  | [] => AllPacked σ atlas
  | texture :: rest =>
      let '(ok, σ', atlas') := pack_texture atlas texture σ in
      if ok then for_textures atlas' rest σ' w h
      else
        match grow σ' atlas' texture w h with
        | Some (w', h') => Grown σ' w' h'
        | None => PassRaised
        end
  end.

(** [while not finished: ...], with fuel counting the passes. *)
Fixpoint growth_loop (fuel : nat) (ts : list Texture) (σ : Store) (w h : Z)
  : outcome (Store * TextureAtlas) :=
  match fuel with
  | O => OutOfFuel
  | S fuel' =>
      match for_textures (TextureAtlas_init w h) ts σ w h with
      | AllPacked σ' atlas => Done (σ', atlas)
      | Grown σ' w' h' => growth_loop fuel' ts σ' w' h'
      | PassRaised => Raised
      end
  end.

(** [main] from the sort to the end of the loop. *)
Definition main_pack (fuel : nat) (ts : list Texture) (σ : Store)
  : outcome (Store * TextureAtlas) :=
  match sorted_reverse (first_frame_perimeter σ) ts with
  | None => Raised
  | Some sorted =>
      match sorted with
      | [] => Raised
      | t0 :: _ =>
          match head (frames t0) with
          | None => Raised
          | Some largest_frame =>
              growth_loop fuel sorted σ
                (width (σ largest_frame)) (height (σ largest_frame))
          end
      end
  end.

(** The rule of the specification, for comparison with [grow]: the frame
    whose placement failed gives the amount.  [failing_frame] replays the
    loop of [pack_texture] and returns the frame at which it stops. *)
Fixpoint failing_frame (reg : PackRegion) (fs : list ref) (σ : Store)
  : option ref :=
  match fs with
  | [] => None
  | f :: fs' =>
      let '(ok, σ', reg') := pack reg f σ in
      if ok then failing_frame reg' fs' σ' else Some f
  end.

Definition grow_by_failing_frame (σ : Store) (atlas : TextureAtlas)
    (failing : ref) (w h : Z) : option (Z * Z) :=
  biggest_free_space ← max_by (fun r => perimeter (rect_of r))
                               (get_free_regions (region atlas));
  Some (if width (rect_of biggest_free_space) <? width (σ failing)
        then (w + width (σ failing), h)
        else (w, h + height (σ failing))).

(** ** JSON map codec *)

Module JsonTextureAtlasMap.

Definition entry : Type := (Z * Z * Z * Z)%type.

(** The tuple built for one frame. *)
Definition frame_entry (atlas : TextureAtlas) (frame : Rect) : entry :=
  (x frame,
   (atlas_height atlas - 1) - y frame - (height frame - 1),
   width frame,
   height frame).

(** A Python [dict] keeps keys in insertion order; storing under a key that
    is present replaces the value where the key already stands. *)
Fixpoint dict_set {V : Type} (d : list (list N * V)) (k : list N) (v : V)
  : list (list N * V) :=
  match d with
  | [] => [(k, v)]
  | (k', v') :: d' =>
      if decide (k' = k) then (k', v) :: d'
      else (k', v') :: dict_set d' k v
  end.

(** The dict comprehension handed to [json.dump]. *)
Definition map_value (σ : Store) (atlas : TextureAtlas)
  : list (list N * list entry) :=
  fold_left
    (fun d texture =>
       dict_set d (name texture)
         (map (fun frame => frame_entry atlas (σ frame)) (frames texture)))
    (textures atlas) [].

Section Dump.
(** [json.dump(obj, file, indent=2)] belongs to the Python library; the
    text it produces is a function of the object. *)
Variable json_dump : list (list N * list entry) -> list N.

Definition write (σ : Store) (atlas : TextureAtlas) : list N :=
  json_dump (map_value σ atlas).
End Dump.

End JsonTextureAtlasMap.

(** ** Binary map codec *)

Definition byte_of_N (n : N) : byte := default x00 (Byte.of_N (n mod 256)).

(** [str.encode("utf-8")] for one code point; surrogates and values past
    U+10FFFF cannot be encoded. *)
Definition utf8_encode_char (c : N) : option (list byte) :=
  if (c <? 0x80)%N then Some [byte_of_N c]
  else if (c <? 0x800)%N then
    Some [byte_of_N (0xC0 + c / 64); byte_of_N (0x80 + c mod 64)]
  else if (c <? 0x10000)%N then
    if ((0xD800 <=? c) && (c <=? 0xDFFF))%N then None
    else Some [byte_of_N (0xE0 + c / 4096);
               byte_of_N (0x80 + (c / 64) mod 64);
               byte_of_N (0x80 + c mod 64)]
  else if (c <? 0x110000)%N then
    Some [byte_of_N (0xF0 + c / 262144);
          byte_of_N (0x80 + (c / 4096) mod 64);
          byte_of_N (0x80 + (c / 64) mod 64);
          byte_of_N (0x80 + c mod 64)]
  else None.

Definition utf8_encode (s : list N) : option (list byte) :=
  (fun bss => concat bss) <$> mapM utf8_encode_char s.

(** [struct.pack] with format character [I]: four bytes, least significant
    first (the byte order of the docstring's magic 0x41584554 for "TEXA");
    [None] for the [struct.error] of a value outside [0, 2^32). *)
Definition pack_I (v : Z) : option (list byte) :=
  if (0 <=? v) && (v <? 2 ^ 32) then
    Some [byte_of_N (Z.to_N v);
          byte_of_N (Z.to_N (v / 2 ^ 8));
          byte_of_N (Z.to_N (v / 2 ^ 16));
          byte_of_N (Z.to_N (v / 2 ^ 24))]
  else None.

Definition struct_pack (vs : list Z) : option (list byte) :=
  (fun bss => concat bss) <$> mapM pack_I vs.

(** [len(...)] and [sum(...)] *)
Definition len {A : Type} (l : list A) : Z := Z.of_nat (length l).
Definition sum (l : list Z) : Z := foldr Z.add 0 l.

Module BinaryTextureAtlasMap.

Definition hdr_fmt_len : Z := 36.   (* struct.calcsize("IIIIIIIII") *)
Definition tex_fmt_len : Z := 12.   (* struct.calcsize("III") *)
Definition frm_fmt_len : Z := 16.   (* struct.calcsize("IIII") *)

Definition magic : list byte := [x54; x45; x58; x41].   (* b"TEXA" *)

(** The loop writing the texture section, with its two running offsets. *)
Fixpoint texture_section (ts : list Texture) (str_offset frm_offset : Z)
  : option (list byte) :=
  match ts with
  | [] => Some []
  | t :: ts' =>
      rec ← struct_pack [str_offset; len (frames t); frm_offset];
      rest ← texture_section ts'
               (str_offset + (len (name t) + 1))
               (frm_offset + len (frames t) * frm_fmt_len);
      Some (rec ++ rest)
  end.

Fixpoint string_section (ts : list Texture) : option (list byte) :=
  match ts with
  | [] => Some []
  | t :: ts' =>
      s ← utf8_encode (name t);
      rest ← string_section ts';
      Some (s ++ [x00] ++ rest)
  end.

Fixpoint frames_bytes (σ : Store) (fs : list ref) : option (list byte) :=
  match fs with
  | [] => Some []
  | f :: fs' =>
      rec ← struct_pack [x (σ f); y (σ f); width (σ f); height (σ f)];
      rest ← frames_bytes σ fs';
      Some (rec ++ rest)
  end.

Fixpoint frame_section (σ : Store) (ts : list Texture) : option (list byte) :=
  match ts with
  | [] => Some []
  | t :: ts' =>
      fs ← frames_bytes σ (frames t);
      rest ← frame_section σ ts';
      Some (fs ++ rest)
  end.

(** [BinaryTextureAtlasMap.write]: the bytes written, [None] when an
    encoder raises. *)
Definition write (σ : Store) (atlas : TextureAtlas) : option (list byte) :=
  let ts := textures atlas in
  let hdr_section_len := hdr_fmt_len + 4 in
  let tex_section_off := hdr_section_len in
  let tex_section_len := len ts * tex_fmt_len in
  let str_section_off := tex_section_off + tex_section_len in
  let str_section_len := sum (map (fun t => len (name t) + 1) ts) in
  let frm_section_off := str_section_off + str_section_len in
  let frm_section_len :=
    sum (map (fun t => len (frames t)) ts) * frm_fmt_len in
  hdr ← struct_pack [atlas_width atlas; atlas_height atlas; len ts;
                     tex_section_off; tex_section_len;
                     str_section_off; str_section_len;
                     frm_section_off; frm_section_len];
  tex ← texture_section ts 0 0;
  str ← string_section ts;
  frm ← frame_section σ ts;
  Some (magic ++ hdr ++ tex ++ str ++ frm).

(** *** The reader's side of the layout *)

Definition slice (bs : list byte) (pos : Z) (n : nat) : option (list byte) :=
  if pos <? 0 then None
  else
    let part := take n (drop (Z.to_nat pos) bs) in
    if decide (length part = n) then Some part else None.

Definition read_I (bs : list byte) (pos : Z) : option Z :=
  part ← slice bs pos 4;
  match part with
  | [b0; b1; b2; b3] =>
      Some (Z.of_N (Byte.to_N b0) + 2 ^ 8 * Z.of_N (Byte.to_N b1)
            + 2 ^ 16 * Z.of_N (Byte.to_N b2) + 2 ^ 24 * Z.of_N (Byte.to_N b3))
  | _ => None
  end.

(** The bytes from [pos] up to the first null byte. *)
Fixpoint until_null (bs : list byte) : option (list byte) :=
  match bs with
  | [] => None
  | b :: bs' =>
      if Byte.eqb b x00 then Some []
      else s ← until_null bs'; Some (b :: s)
  end.

Definition read_cstring (bs : list byte) (pos : Z) : option (list byte) :=
  if pos <? 0 then None else until_null (drop (Z.to_nat pos) bs).

Record header : Type := mkHeader {
  hdr_width : Z; hdr_height : Z; texture_count : Z;
  texture_section_offset : Z; texture_section_size : Z;
  string_section_offset : Z; string_section_size : Z;
  frame_section_offset : Z; frame_section_size : Z }.

Definition read_header (bs : list byte) : option header :=
  w ← read_I bs 4; h ← read_I bs 8; n ← read_I bs 12;
  to ← read_I bs 16; tl ← read_I bs 20;
  so ← read_I bs 24; sl ← read_I bs 28;
  fo ← read_I bs 32; fl ← read_I bs 36;
  Some (mkHeader w h n to tl so sl fo fl).

Record texture_record : Type :=
  mkTextureRecord { name_offset : Z; frame_count : Z; frame_offset : Z }.

Definition read_texture (bs : list byte) (pos : Z) : option texture_record :=
  a ← read_I bs pos; b ← read_I bs (pos + 4); c ← read_I bs (pos + 8);
  Some (mkTextureRecord a b c).

Definition read_frame (bs : list byte) (pos : Z) : option Rect :=
  a ← read_I bs pos; b ← read_I bs (pos + 4);
  c ← read_I bs (pos + 8); d ← read_I bs (pos + 12);
  Some (mkRect a b c d).

(** The offset contract for texture [i] with frames [fs]: the record at
    [texture_section_offset + i*12], the name it points to and the frame
    records it points to are those of the texture. *)
Definition texture_located (σ : Store) (bs : list byte) (hd : header)
    (i : nat) (t : Texture) : Prop :=
  exists rec,
    read_texture bs (texture_section_offset hd + Z.of_nat i * 12) = Some rec
    /\ frame_count rec = len (frames t)
    /\ (exists enc, utf8_encode (name t) = Some enc
          /\ read_cstring bs (string_section_offset hd + name_offset rec)
             = Some enc)
    /\ forall (j : nat) (f : ref), frames t !! j = Some f ->
         read_frame bs (frame_section_offset hd + frame_offset rec
                        + Z.of_nat j * 16) = Some (σ f).

Definition offset_contract (σ : Store) (atlas : TextureAtlas)
    (bs : list byte) : Prop :=
  exists hd, read_header bs = Some hd
    /\ forall (i : nat) (t : Texture), textures atlas !! i = Some t ->
         texture_located σ bs hd i t.

End BinaryTextureAtlasMap.

(** ** Loading texture specifications

    What [main] builds from its arguments once the image library has reported
    the size of every frame: one fresh [Frame] object at the origin per frame,
    grouped into textures. *)

Definition texture_spec : Type := (list N * list (Z * Z))%type.

Fixpoint alloc_frames (next : ref) (dims : list (Z * Z)) (σ : Store)
  : ref * Store * list ref :=
  match dims with
  | [] => (next, σ, [])
  | (w, h) :: dims' =>
      let '(next', σ', fs) :=
        alloc_frames (S next) dims' (<[next := mkRect 0 0 w h]> σ) in
      (next', σ', next :: fs)
  end.

Fixpoint load_textures (next : ref) (specs : list texture_spec) (σ : Store)
  : Store * list Texture :=
  match specs with
  | [] => (σ, [])
  | (nm, dims) :: specs' =>
      let '(next', σ', fs) := alloc_frames next dims σ in
      let '(σ'', ts) := load_textures next' specs' σ' in
      (σ'', mkTexture nm fs :: ts)
  end.

Definition empty_store : Store := fun _ => mkRect 0 0 0 0.

(** ** Invariants of a region tree *)

(** Every node of a tree, the tree itself first. *)
Fixpoint regions (self : PackRegion) : list PackRegion :=
  match self with
  | Free _ => [self]
  | Occupied _ _ s1 s2 => self :: regions s1 ++ regions s2
  end.

(** The sub-regions of every occupied node are the two that [pack] cuts for
    its occupant, and the occupant's size is non-negative and fits. *)
Fixpoint well_split (σ : Store) (self : PackRegion) : Prop :=
  match self with
  | Free _ => True
  | Occupied r q s1 s2 =>
      0 <= width (σ q) <= width r
      /\ 0 <= height (σ q) <= height r
      /\ rect_of s1 = mkRect (x r) (y r + height (σ q))
                            (width (σ q)) (height r - height (σ q))
      /\ rect_of s2 = mkRect (x r + width (σ q)) (y r)
                            (width r - width (σ q)) (height r)
      /\ well_split σ s1 /\ well_split σ s2
  end.

(** Every occupant still stands where [pack] put it. *)
Fixpoint placed (σ : Store) (self : PackRegion) : Prop :=
  match self with
  | Free _ => True
  | Occupied r q s1 s2 =>
      x (σ q) = x r /\ y (σ q) = y r /\ placed σ s1 /\ placed σ s2
  end.

(** The pieces of a tree listed node by node. *)
Fixpoint parts (σ : Store) (self : PackRegion) : list Rect :=
  match self with
  | Free r => [r]
  | Occupied _ q s1 s2 => σ q :: parts σ s1 ++ parts σ s2
  end.

Definition non_negative (r : Rect) : Prop := 0 <= width r /\ 0 <= height r.
Definition positive (r : Rect) : Prop := 0 < width r /\ 0 < height r.
Definition degenerate (r : Rect) : Prop := width r = 0 \/ height r = 0.

(** ** Concrete inputs

    A store for the examples: object 0 is 5x2, object 1 is 0x3 and
    every other object is 2x2. *)
Definition example_store : Store :=
  fun q => match q with
           | O => mkRect 0 0 5 2
           | S O => mkRect 0 0 0 3
           | _ => mkRect 0 0 2 2
           end.

(** The atlas left by [pack_texture] of the one-frame texture "a" (object 0)
    into a fresh 5x5 atlas, in [example_store]. *)
Definition example_atlas : TextureAtlas :=
  mkAtlas
    (Occupied (mkRect 0 0 5 5) 0%nat
       (Free (mkRect 0 2 5 3)) (Free (mkRect 5 0 0 5)))
    [mkTexture [97%N] [0%nat]].

(** One texture "a" with two frames: object 0 is 1x1, object 1 is 2x1. *)
Definition two_frame_store : Store :=
  fun q => match q with
           | O => mkRect 0 0 1 1
           | _ => mkRect 0 0 2 1
           end.

Definition two_frame_texture : Texture := mkTexture [97%N] [0%nat; 1%nat].

(** Lists sorted by key, largest first. *)
Definition descending {A : Type} (key : A -> option Z) (l : list A) : Prop :=
  ForallOrdPairs
    (fun a b => exists ka kb, key a = Some ka /\ key b = Some kb /\ ka >= kb) l.

(** Four textures for the examples: "a" 2x2, "b" 4x4, "c" 3x3, "d" 4x4. *)
Definition example_specs : list texture_spec :=
  [([97%N], [(2, 2)]); ([98%N], [(4, 4)]);
   ([99%N], [(3, 3)]); ([100%N], [(4, 4)])].

(** Two one-frame textures, the first named "é" (U+00E9), the second "b",
    both 1x1; the store and the atlas [main] ends with for them (second
    pass, canvas 1x2), and the bytes of the binary map. *)
Definition accent_specs : list texture_spec :=
  [([233%N], [(1, 1)]); ([98%N], [(1, 1)])].

Definition accent_store : Store :=
  <[1%nat := mkRect 0 1 1 1]>
    (<[0%nat := mkRect 0 0 1 1]>
       (<[0%nat := mkRect 0 0 1 1]>
          (load_textures 0%nat accent_specs empty_store).1)).

Definition accent_atlas : TextureAtlas :=
  mkAtlas
    (Occupied (mkRect 0 0 1 2) 0%nat
       (Occupied (mkRect 0 1 1 1) 1%nat
          (Free (mkRect 0 2 1 0)) (Free (mkRect 1 1 0 1)))
       (Free (mkRect 1 0 0 2)))
    [mkTexture [233%N] [0%nat]; mkTexture [98%N] [1%nat]].

Definition accent_bytes : list byte :=
  Eval vm_compute in
    default [] (BinaryTextureAtlasMap.write accent_store accent_atlas).

(** Names of ASCII characters other than NUL: one byte each in UTF-8. *)
Definition ascii_name (s : list N) : Prop :=
  Forall (fun c => (0 < c < 128)%N) s.

(** The running offsets of the texture section: what the names and the
    frames of the textures before index [i] take. *)
Definition names_before (ts : list Texture) (i : nat) : Z :=
  sum (map (fun t => len (name t) + 1) (take i ts)).
Definition frames_before (ts : list Texture) (i : nat) : Z :=
  sum (map (fun t => len (frames t)) (take i ts)).

(** The bytes of the binary map of [example_atlas]. *)
Definition example_bytes : list byte :=
  Eval vm_compute in
    default [] (BinaryTextureAtlasMap.write example_store example_atlas).

(** A rectangle fits a region when it is neither wider nor taller: the
    negation of the guard of [pack]. *)
Definition fits (p r : Rect) : Prop :=
  width p <= width r /\ height p <= height r.

(** [p] lies inside [r], by coordinates (also for rectangles without
    pixels). *)
Definition inside_box (p r : Rect) : Prop :=
  x r <= x p /\ x p + width p <= x r + width r
  /\ y r <= y p /\ y p + height p <= y r + height r.

(** The name of a texture with the sizes of its frames, as the store has
    them: what a texture specification gives. *)
Definition texture_shape (σ : Store) (t : Texture) : texture_spec :=
  (name t, map (fun f => (width (σ f), height (σ f))) (frames t)).

(** The canvas of an atlas. *)
Definition canvas (a : TextureAtlas) : Rect :=
  mkRect 0 0 (atlas_width a) (atlas_height a).

(** The run of [main] on [example_specs], three passes allowed, and the
    store and atlas it ends with. *)
Definition example_run : outcome (Store * TextureAtlas) :=
  main_pack 3 (load_textures 0%nat example_specs empty_store).2
              (load_textures 0%nat example_specs empty_store).1.

Definition example_final_store : Store :=
  match example_run with
  | Done (σ, _) => σ
  | _ => empty_store
  end.

Definition example_final_atlas : TextureAtlas :=
  Eval vm_compute in
    match example_run with
    | Done (_, atlas) => atlas
    | _ => TextureAtlas_init 0 0
    end.

(** The free region at the end of the chain of right-hand sub-regions: the
    last free region of the tree. *)
Fixpoint rightmost (self : PackRegion) : Rect :=
  match self with
  | Free r => r
  | Occupied _ _ _ s2 => rightmost s2
  end.

(** The widths, and the heights, of all frames of a list of textures added
    up. *)
Definition total_width (σ : Store) (ts : list Texture) : Z :=
  sum (map (fun f => width (σ f)) (concat (map frames ts))).
Definition total_height (σ : Store) (ts : list Texture) : Z :=
  sum (map (fun f => height (σ f)) (concat (map frames ts))).

(** A texture of exactly one frame, of positive width and height. *)
Definition single_frame (σ : Store) (t : Texture) : Prop :=
  exists f, frames t = [f] /\ positive (σ f).

(** The textures and the store [main] builds for [example_specs]. *)
Definition example_textures : list Texture :=
  Eval vm_compute in (load_textures 0%nat example_specs empty_store).2.

Definition example_loaded_store : Store :=
  (load_textures 0%nat example_specs empty_store).1.

(** Reading the dict handed to [json.dump] by key. *)
Fixpoint dict_get {V : Type} (d : list (list N * V)) (k : list N)
  : option V :=
  match d with
  | [] => None
  | (k', v) :: d' => if decide (k' = k) then Some v else dict_get d' k
  end.

(** The list of tuples the JSON codec builds for one texture. *)
Definition frame_entries (σ : Store) (atlas : TextureAtlas) (t : Texture)
  : list JsonTextureAtlasMap.entry :=
  map (fun frame => JsonTextureAtlasMap.frame_entry atlas (σ frame)) (frames t).

(** ** The fixed-size script [src/textureatlas.py]

    Its classes are those of the package, except that [TextureAtlas.pack]
    raises where [pack_texture] returns false, and [main] packs the sorted
    textures into one square canvas without growing it.  [None] is the
    exception. *)

Module Script.

(** [TextureAtlas.pack] of the script. *)
Definition pack (self : TextureAtlas) (texture : Texture) (σ : Store)
  : option (Store * TextureAtlas) :=
  match pack_frames (region self) (frames texture) σ with
  | (true, σ', reg') => Some (σ', mkAtlas reg' (textures self ++ [texture]))
  | (false, _, _) => None
  end.

(** [for texture in textures: atlas.pack(texture)] *)
Fixpoint pack_all (atlas : TextureAtlas) (ts : list Texture) (σ : Store)
  : option (Store * TextureAtlas) :=
  match ts with
  | [] => Some (σ, atlas)
  | texture :: rest =>
      match pack atlas texture σ with
      | Some (σ', atlas') => pack_all atlas' rest σ'
      | None => None
      end
  end.

(** [main] from the sort to the end of the packing. *)
Definition main_pack (size : Z) (ts : list Texture) (σ : Store)
  : option (Store * TextureAtlas) :=
  match sorted_reverse (first_frame_perimeter σ) ts with
  | None => None
  | Some sorted => pack_all (TextureAtlas_init size size) sorted σ
  end.

End Script.

(** The run of the script on [example_specs] with [--size 8], and the store
    and atlas it ends with. *)
Definition script_example_run : option (Store * TextureAtlas) :=
  Script.main_pack 8 (load_textures 0%nat example_specs empty_store).2
                     (load_textures 0%nat example_specs empty_store).1.

Definition script_example_store : Store :=
  match script_example_run with
  | Some (σ, _) => σ
  | None => empty_store
  end.

Definition script_example_atlas : TextureAtlas :=
  Eval vm_compute in
    match script_example_run with
    | Some (_, atlas) => atlas
    | None => TextureAtlas_init 0 0
    end.

(** ** Regions as objects

    [PackRegion] is a subclass of [Rect]: a region is itself an object with a
    position and a size, and a caller can offer a region of a tree to [pack]
    (say [root.pack(root.subregion_1)]), which then moves it like any other
    [Rect].  [pack] above is the packer for packables that are not regions
    of the tree they are packed into.  This module covers every call: a
    region is an object of the store, the tree records the references of its
    regions, and [PackRegion(...)] allocates a new object. *)

Module Objects.

(** The objects and the first reference not yet handed out. *)
Record Heap : Type := mkHeap { objects : Store; next : ref }.

(** [PackRegion(x, y, width, height)] *)
Definition alloc (r : Rect) (h : Heap) : ref * Heap :=
  (next h, mkHeap (<[next h := r]> (objects h)) (S (next h))).

(** A region whose [packable] is [None] is a [Leaf]; [subregion_1] and
    [subregion_2] are assigned together with [packable]. *)
Inductive PackRegion : Type :=
| Leaf (self : ref)
| Node (self : ref) (packable : ref) (subregion_1 subregion_2 : PackRegion).

Definition self_of (t : PackRegion) : ref :=
  match t with
  | Leaf s => s
  | Node s _ _ _ => s
  end.

(** [PackRegion.pack]: the returned boolean with the heap and the tree as the
    call leaves them.  Every field is read from the heap at the point where
    the source reads it. *)
Fixpoint pack (self : PackRegion) (packable : ref) (h : Heap)
  : bool * Heap * PackRegion :=
  match self with
  | Leaf s =>
      let σ := objects h in
      if (width (σ packable) >? width (σ s))
         || (height (σ packable) >? height (σ s))
      then (false, h, self)
      else
        let h0 :=
          mkHeap (<[packable := set_pos (σ packable) (x (σ s)) (y (σ s))]> σ)
                 (next h) in
        let '(s1, h1) :=
          alloc (let σ := objects h0 in
                 mkRect (x (σ s)) (y (σ s) + height (σ packable))
                        (width (σ packable))
                        (height (σ s) - height (σ packable))) h0 in
        let '(s2, h2) :=
          alloc (let σ := objects h1 in
                 mkRect (x (σ s) + width (σ packable)) (y (σ s))
                        (width (σ s) - width (σ packable))
                        (height (σ s))) h1 in
        (true, h2, Node s packable (Leaf s1) (Leaf s2))
  | Node s q s1 s2 =>
      if perimeter (objects h (self_of s1))
         >? perimeter (objects h (self_of s2)) then
        let '(b1, h1, s1') := pack s1 packable h in
        if b1 then (true, h1, Node s q s1' s2)
        else
          let '(b2, h2, s2') := pack s2 packable h1 in
          (b2, h2, Node s q s1' s2')
      else
        let '(b2, h2, s2') := pack s2 packable h in
        if b2 then (true, h2, Node s q s1 s2')
        else
          let '(b1, h1, s1') := pack s1 packable h2 in
          (b1, h1, Node s q s1' s2')
  end.

(** [PackRegion.get_free_regions]: the returned list of region objects, with
    the heap and the tree as the call leaves them. *)
Fixpoint get_free_regions (self : PackRegion) (h : Heap)
  : list ref * Heap * PackRegion :=
  match self with
  | Leaf s => ([s], h, self)
  | Node s q s1 s2 =>
      let '(l1, h1, s1') := get_free_regions s1 h in
      let '(l2, h2, s2') := get_free_regions s2 h1 in
      (l1 ++ l2, h2, Node s q s1' s2')
  end.

(** A sequence of [pack] calls on one tree, all of which must succeed. *)
Fixpoint pack_seq (self : PackRegion) (h : Heap) (ps : list ref)
  : option (Heap * PackRegion) :=
  match ps with
  | [] => Some (h, self)
  | p :: ps' =>
      match pack self p h with
      | (true, h', self') => pack_seq self' h' ps'
      | (false, _, _) => None
      end
  end.

(** Every region of a tree, the tree itself first; the objects they are; the
    regions without occupant; the occupants. *)
Fixpoint regions (t : PackRegion) : list PackRegion :=
  match t with
  | Leaf _ => [t]
  | Node _ _ s1 s2 => t :: regions s1 ++ regions s2
  end.

Fixpoint region_refs (t : PackRegion) : list ref :=
  match t with
  | Leaf s => [s]
  | Node s _ s1 s2 => s :: region_refs s1 ++ region_refs s2
  end.

Fixpoint leaves (t : PackRegion) : list ref :=
  match t with
  | Leaf s => [s]
  | Node _ _ s1 s2 => leaves s1 ++ leaves s2
  end.

Fixpoint occupant_refs (t : PackRegion) : list ref :=
  match t with
  | Leaf _ => []
  | Node _ q s1 s2 => q :: occupant_refs s1 ++ occupant_refs s2
  end.

(** The rectangles the tiling invariant speaks about, as the heap shows
    them. *)
Definition pieces (h : Heap) (t : PackRegion) : list Rect :=
  map (objects h) (occupant_refs t) ++ map (objects h) (leaves t).

End Objects.

(** The tree of [Objects] with the rectangle of each region read from the
    store: the value that [pack] above works on. *)
Fixpoint erase (σ : Store) (t : Objects.PackRegion) : PackRegion :=
  match t with
  | Objects.Leaf s => Free (σ s)
  | Objects.Node s q s1 s2 => Occupied (σ s) q (erase σ s1) (erase σ s2)
  end.

(** A heap for the examples: object 0 is a 5x5 region at the origin, object 1
    a 2x2 rectangle, object 2 a 2x3 rectangle; nothing else is allocated. *)
Definition example_heap : Objects.Heap :=
  Objects.mkHeap
    (fun q => match q with
              | O => mkRect 0 0 5 5
              | S O => mkRect 0 0 2 2
              | S (S O) => mkRect 0 0 2 3
              | _ => mkRect 0 0 0 0
              end)
    3.

(** The heap of [example_heap] with a rectangle of negative width as
    object 2. *)
Definition negative_heap : Objects.Heap :=
  Objects.mkHeap
    (fun q => match q with
              | O => mkRect 0 0 5 5
              | S O => mkRect 0 0 2 2
              | S (S O) => mkRect 0 0 (-1) 1
              | _ => mkRect 0 0 0 0
              end)
    3.

(** * Properties *)

(** ** [pack] on its own *)

Lemma pack_false (t : PackRegion) (p : ref) :
  forall σ σ' t', pack t p σ = (false, σ', t') -> σ' = σ /\ t' = t.
Proof.
  induction t as [r | r q s1 IH1 s2 IH2]; intros σ σ' t'; simpl.
  - destruct (_ || _); intros [= <- <-]; auto.
  - destruct (perimeter (rect_of s1) >? perimeter (rect_of s2)).
    + destruct (pack s1 p σ) as [[b1 σ1] s1'] eqn:E1.
      destruct b1; [intros [=] |].
      apply IH1 in E1 as [-> ->].
      destruct (pack s2 p σ) as [[b2 σ2] s2'] eqn:E2.
      intros [= -> <- <-]. apply IH2 in E2 as [-> ->]. auto.
    + destruct (pack s2 p σ) as [[b2 σ2] s2'] eqn:E2.
      destruct b2; [intros [=] |].
      apply IH2 in E2 as [-> ->].
      destruct (pack s1 p σ) as [[b1 σ1] s1'] eqn:E1.
      intros [= -> <- <-]. apply IH1 in E1 as [-> ->]. auto.
Qed.

Lemma pack_rect_of (t : PackRegion) (p : ref) (σ : Store) :
  rect_of (pack t p σ).2 = rect_of t.
Proof.
  destruct t as [r | r q s1 s2]; simpl.
  - destruct (_ || _); reflexivity.
  - destruct (_ >? _).
    + destruct (pack s1 p σ) as [[[] σ1] s1']; [reflexivity |].
      destruct (pack s2 p σ1) as [[b2 σ2] s2']; reflexivity.
    + destruct (pack s2 p σ) as [[[] σ2] s2']; [reflexivity |].
      destruct (pack s1 p σ2) as [[b1 σ1] s1']; reflexivity.
Qed.

(** [pack] writes the position of its argument and nothing else. *)
Lemma pack_store (t : PackRegion) (p : ref) :
  forall σ b σ' t', pack t p σ = (b, σ', t') ->
    (forall q, q <> p -> σ' q = σ q)
    /\ width (σ' p) = width (σ p) /\ height (σ' p) = height (σ p).
Proof.
  induction t as [r | r q s1 IH1 s2 IH2]; intros σ b σ' t'; simpl.
  - destruct (_ || _); intros [= <- <- <-]; [auto |].
    split; [| rewrite fn_lookup_insert; auto].
    intros q' Hq. by rewrite fn_lookup_insert_ne.
  - destruct (_ >? _).
    + destruct (pack s1 p σ) as [[b1 σ1] s1'] eqn:E1.
      destruct b1; [intros [= <- <- <-]; eauto |].
      apply pack_false in E1 as [-> ->].
      destruct (pack s2 p σ) as [[b2 σ2] s2'] eqn:E2.
      intros [= <- <- <-]; eauto.
    + destruct (pack s2 p σ) as [[b2 σ2] s2'] eqn:E2.
      destruct b2; [intros [= <- <- <-]; eauto |].
      apply pack_false in E2 as [-> ->].
      destruct (pack s1 p σ) as [[b1 σ1] s1'] eqn:E1.
      intros [= <- <- <-]; eauto.
Qed.

Lemma pack_dims (t : PackRegion) (p : ref) (σ σ' : Store) b t' :
  pack t p σ = (b, σ', t') ->
  forall q, width (σ' q) = width (σ q) /\ height (σ' q) = height (σ q).
Proof.
  intros H q. apply pack_store in H as (Hother & Hw & Hh).
  destruct (decide (q = p)) as [-> | Hne]; [auto |].
  by rewrite Hother.
Qed.

(** C6. On a free region [pack] fails, leaving the store and the tree as they
    were, exactly when the packable is wider or taller than the region;
    otherwise it succeeds, writes the region's origin into the packable's
    position (and touches nothing else in the store) and the region becomes
    occupied by that packable.  On any region, free or occupied, a failing
    [pack] leaves the store and the whole tree unchanged. *)
Theorem pack_free_and_failure (r : Rect) (p : ref) (σ : Store) :
  ((width (σ p) > width r \/ height (σ p) > height r) <->
     (pack (Free r) p σ).1.1 = false)
  /\ ((pack (Free r) p σ).1.1 = false ->
        pack (Free r) p σ = (false, σ, Free r))
  /\ ((pack (Free r) p σ).1.1 = true ->
        exists σ' s1 s2,
          pack (Free r) p σ = (true, σ', Occupied r p s1 s2)
          /\ x (σ' p) = x r /\ y (σ' p) = y r
          /\ width (σ' p) = width (σ p) /\ height (σ' p) = height (σ p)
          /\ (forall q, q <> p -> σ' q = σ q)
          /\ is_free (Occupied r p s1 s2) = false)
  /\ (forall t σ' t', pack t p σ = (false, σ', t') -> σ' = σ /\ t' = t).
Proof.
  split; [| split; [| split]].
  - simpl.
    destruct (width (σ p) >? width r) eqn:Ew;
      destruct (height (σ p) >? height r) eqn:Eh; simpl;
      split; intros H; try reflexivity; try discriminate H; lia.
  - simpl. destruct (_ || _); simpl; [reflexivity | discriminate].
  - simpl. destruct (_ || _); simpl; [discriminate |].
    intros _. eexists _, _, _. split; [reflexivity |].
    rewrite fn_lookup_insert. simpl. repeat split.
    intros q Hq. by rewrite fn_lookup_insert_ne.
  - intros t σ' t'. apply pack_false.
Qed.

(** ** What a successful [pack] does to an occupied region *)

Lemma pack_occupied_true r q s1 s2 p (σ σ' : Store) t' :
  pack (Occupied r q s1 s2) p σ = (true, σ', t') ->
  (exists s1', pack s1 p σ = (true, σ', s1') /\ t' = Occupied r q s1' s2)
  \/ (exists s2', pack s2 p σ = (true, σ', s2') /\ t' = Occupied r q s1 s2').
Proof.
  simpl. destruct (_ >? _).
  - destruct (pack s1 p σ) as [[b1 σ1] s1'] eqn:E1. destruct b1.
    + intros [= <- <-]. left. eauto.
    + apply pack_false in E1 as [-> ->].
      destruct (pack s2 p σ) as [[b2 σ2] s2'] eqn:E2.
      intros [= -> <- <-]. right. eauto.
  - destruct (pack s2 p σ) as [[b2 σ2] s2'] eqn:E2. destruct b2.
    + intros [= <- <-]. right. eauto.
    + apply pack_false in E2 as [-> ->].
      destruct (pack s1 p σ) as [[b1 σ1] s1'] eqn:E1.
      intros [= -> <- <-]. left. eauto.
Qed.

Lemma pack_occupied_false r q s1 s2 p (σ : Store) :
  pack s1 p σ = (false, σ, s1) -> pack s2 p σ = (false, σ, s2) ->
  pack (Occupied r q s1 s2) p σ = (false, σ, Occupied r q s1 s2).
Proof.
  intros E1 E2. simpl.
  destruct (_ >? _);
    [rewrite E1; simpl; rewrite E2 | rewrite E2; simpl; rewrite E1];
    reflexivity.
Qed.

Lemma pack_rect_of' t p (σ σ' : Store) b t' :
  pack t p σ = (b, σ', t') -> rect_of t' = rect_of t.
Proof. intros H. rewrite <- (pack_rect_of t p σ). by rewrite H. Qed.

(** ** [well_split] is an invariant of [pack] *)

Lemma well_split_ext (σ σ' : Store) (t : PackRegion) :
  (forall q, width (σ' q) = width (σ q) /\ height (σ' q) = height (σ q)) ->
  well_split σ t -> well_split σ' t.
Proof.
  intros Hd. induction t as [r | r q s1 IH1 s2 IH2]; simpl; [done |].
  destruct (Hd q) as [-> ->]. tauto.
Qed.

Lemma pack_well_split (t : PackRegion) (p : ref) :
  forall σ σ' t', well_split σ t -> non_negative (σ p) ->
    pack t p σ = (true, σ', t') -> well_split σ' t'.
Proof.
  induction t as [r | r q s1 IH1 s2 IH2]; intros σ σ' t' Hw [Hnw Hnh].
  - simpl. destruct (_ || _) eqn:E; intros [= <- <-].
    simpl. rewrite fn_lookup_insert. simpl. repeat split; lia.
  - intros H. destruct Hw as (Hqw & Hqh & R1 & R2 & W1 & W2).
    apply pack_occupied_true in H as [(s1' & E & ->) | (s2' & E & ->)];
      pose proof (pack_dims _ _ _ _ _ _ E) as Hd;
      pose proof (pack_rect_of' _ _ _ _ _ _ E) as Hr;
      simpl; destruct (Hd q) as [-> ->]; rewrite ?Hr;
      repeat split; try tauto; try lia.
    + eapply IH1; eauto. by split.
    + by apply (well_split_ext σ).
    + by apply (well_split_ext σ).
    + eapply IH2; eauto. by split.
Qed.

Lemma pack_seq_dims (ps : list ref) :
  forall t (σ σ' : Store) t', pack_seq t σ ps = Some (σ', t') ->
    forall q, width (σ' q) = width (σ q) /\ height (σ' q) = height (σ q).
Proof.
  induction ps as [| p ps IH]; intros t σ σ' t'; simpl.
  - by intros [= <- <-].
  - destruct (pack t p σ) as [[b σ1] t1] eqn:E. destruct b; [| done].
    intros H q. destruct (IH _ _ _ _ H q) as [-> ->].
    eapply pack_dims, E.
Qed.

Lemma pack_seq_rect_of (ps : list ref) :
  forall t (σ σ' : Store) t', pack_seq t σ ps = Some (σ', t') ->
    rect_of t' = rect_of t.
Proof.
  induction ps as [| p ps IH]; intros t σ σ' t'; simpl.
  - by intros [= <- <-].
  - destruct (pack t p σ) as [[b σ1] t1] eqn:E. destruct b; [| done].
    intros H. rewrite (IH _ _ _ _ H). eapply pack_rect_of', E.
Qed.

Lemma pack_seq_well_split (ps : list ref) :
  forall t (σ σ' : Store) t', well_split σ t ->
    Forall (fun q => non_negative (σ q)) ps ->
    pack_seq t σ ps = Some (σ', t') -> well_split σ' t'.
Proof.
  induction ps as [| p ps IH]; intros t σ σ' t' Hw Hn; simpl.
  - by intros [= <- <-].
  - destruct (pack t p σ) as [[b σ1] t1] eqn:E. destruct b; [| done].
    inversion Hn as [| ? ? Hp Hn']; subst. clear Hn. rename Hn' into Hn.
    apply IH; [eapply pack_well_split; eauto |].
    rewrite Forall_forall in Hn |- *. intros q Hq.
    specialize (Hn q Hq). unfold non_negative in *.
    by destruct (pack_dims _ _ _ _ _ _ E q) as [-> ->].
Qed.

Lemma regions_well_split (σ : Store) (t g : PackRegion) :
  well_split σ t -> g ∈ regions t -> well_split σ g.
Proof.
  induction t as [r | r q s1 IH1 s2 IH2]; simpl; intros Hw Hg.
  - apply list_elem_of_singleton in Hg as ->. done.
  - apply elem_of_cons in Hg as [-> | Hg]; [done |].
    apply elem_of_app in Hg as [Hg | Hg]; [apply IH1 | apply IH2]; tauto.
Qed.

(** ** Degenerate regions *)

Lemma degenerate_rejects (σ : Store) (p : ref) (t : PackRegion) :
  well_split σ t -> degenerate (rect_of t) -> positive (σ p) ->
  pack t p σ = (false, σ, t).
Proof.
  intros Hw Hd [Hpw Hph]. induction t as [r | r q s1 IH1 s2 IH2].
  - simpl in *. unfold degenerate in Hd.
    destruct (_ || _) eqn:E; [done | lia].
  - destruct Hw as (Hqw & Hqh & R1 & R2 & W1 & W2). simpl in Hd.
    apply pack_occupied_false.
    + apply IH1; [done |]. rewrite R1. unfold degenerate in *. simpl. lia.
    + apply IH2; [done |]. rewrite R2. unfold degenerate in *. simpl. lia.
Qed.

(** C7, as amended.  In a tree built from a fresh root by successful [pack]
    calls of rectangles of non-negative size, every region of zero width or
    zero height, free or occupied, rejects every rectangle of positive width
    and height, and the failed call changes nothing. *)
Theorem degenerate_region_rejects_positive (root : Rect) (σ0 σ : Store)
    (ps : list ref) (t g : PackRegion) (p : ref) :
  pack_seq (Free root) σ0 ps = Some (σ, t) ->
  Forall (fun q => non_negative (σ0 q)) ps ->
  g ∈ regions t ->
  degenerate (rect_of g) ->
  positive (σ p) ->
  pack g p σ = (false, σ, g).
Proof.
  intros Hseq Hn Hg Hd Hp.
  apply degenerate_rejects; [| done | done].
  eapply regions_well_split; [| exact Hg].
  eapply pack_seq_well_split; [| exact Hn | exact Hseq]. done.
Qed.

Lemma degenerate_region_rejects_positive_witness :
  let σ : Store := <[0%nat := mkRect 0 0 5 2]> example_store in
  pack (Free (mkRect 5 0 0 5)) 2%nat σ = (false, σ, Free (mkRect 5 0 0 5)).
Proof.
  intros σ.
  apply (degenerate_region_rejects_positive (mkRect 0 0 5 5) example_store σ
           [0%nat]
           (Occupied (mkRect 0 0 5 5) 0%nat
              (Free (mkRect 0 2 5 3)) (Free (mkRect 5 0 0 5)))
           (Free (mkRect 5 0 0 5)) 2%nat).
  - reflexivity.
  - repeat constructor; simpl; lia.
  - simpl. rewrite !elem_of_cons. auto.
  - left. reflexivity.
  - split; simpl; lia.
Defined.

(** C7 as stated fails: after a 5x2 rectangle is packed into a fresh 5x5
    root, the split leaves the zero-width region (5, 0, 0, 5); a rectangle of
    width zero and height three offered to that region is accepted. *)
Lemma degenerate_region_accepts_empty_rect :
  ~ (forall (root : Rect) (σ0 σ : Store) (ps : list ref) (t g : PackRegion)
            (p : ref),
        pack_seq (Free root) σ0 ps = Some (σ, t) ->
        g ∈ regions t ->
        degenerate (rect_of g) ->
        (pack g p σ).1.1 = false).
Proof.
  intros H.
  specialize (H (mkRect 0 0 5 5) example_store
                (<[0%nat := mkRect 0 0 5 2]> example_store) [0%nat]
                (Occupied (mkRect 0 0 5 5) 0%nat
                   (Free (mkRect 0 2 5 3)) (Free (mkRect 5 0 0 5)))
                (Free (mkRect 5 0 0 5)) 1%nat eq_refl).
  simpl in H. discriminate H; [rewrite !elem_of_cons; auto | by left].
Qed.

(** ** Lists of pairwise disjoint rectangles *)

Lemma total_area_app (l1 l2 : list Rect) :
  total_area (l1 ++ l2) = total_area l1 + total_area l2.
Proof.
  unfold total_area. induction l1 as [| a l1 IH]; simpl; [done |].
  rewrite IH. lia.
Qed.

Lemma total_area_perm (l1 l2 : list Rect) :
  l1 ≡ₚ l2 -> total_area l1 = total_area l2.
Proof.
  unfold total_area.
  induction 1 as [| a l1 l2 _ IH | a b l | l1 l2 l3 _ IH1 _ IH2]; simpl; lia.
Qed.

Lemma pairwise_disjoint_app (l1 l2 : list Rect) :
  pairwise_disjoint l1 -> pairwise_disjoint l2 ->
  (forall a b, a ∈ l1 -> b ∈ l2 -> ~ overlap a b) ->
  pairwise_disjoint (l1 ++ l2).
Proof.
  unfold pairwise_disjoint. intros H1 H2 Hx.
  induction H1 as [| a l1 Ha _ IH]; simpl; [done |].
  constructor.
  - apply Forall_app. split; [done |].
    apply Forall_forall. intros b Hb. apply Hx; [apply list_elem_of_here | done].
  - apply IH. intros a' b Ha' Hb. apply Hx; [by apply list_elem_of_further | done].
Qed.

Lemma overlap_sym (a b : Rect) : overlap a b -> overlap b a.
Proof. intros (px & py & Ha & Hb). by exists px, py. Qed.

Lemma pairwise_disjoint_perm (l1 l2 : list Rect) :
  l1 ≡ₚ l2 -> pairwise_disjoint l1 -> pairwise_disjoint l2.
Proof.
  unfold pairwise_disjoint.
  induction 1 as [| a l1 l2 Hp IH | a b l | l1 l2 l3 _ IH1 _ IH2];
    intros H; [done | | | auto].
  - inversion H as [| ? ? Ha Hl]; subst. constructor; [| auto].
    by rewrite <- Hp.
  - inversion H as [| ? ? Hb Hl]; subst.
    inversion Hb as [| ? ? Hba Hbl]; subst.
    inversion Hl as [| ? ? Ha Hl']; subst.
    constructor; [| by constructor].
    constructor; [| done]. intros Ho. by apply Hba, overlap_sym.
Qed.

Lemma within_refl (a : Rect) : within a a.
Proof. by intros px py. Qed.

Lemma within_trans (a b c : Rect) : within a b -> within b c -> within a c.
Proof. intros Hab Hbc px py H. auto. Qed.

Lemma disjoint_within (a b a' b' : Rect) :
  within a a' -> within b b' -> ~ overlap a' b' -> ~ overlap a b.
Proof.
  intros Ha Hb Hn (px & py & Hpa & Hpb). apply Hn. exists px, py. auto.
Qed.

(** ** The pieces of a tree, node by node *)

Lemma parts_pieces (σ : Store) (t : PackRegion) : parts σ t ≡ₚ pieces σ t.
Proof.
  unfold pieces, occupants.
  induction t as [r | r q s1 IH1 s2 IH2]; simpl; [done |].
  constructor. rewrite IH1, IH2, !map_app.
  rewrite <- !app_assoc. apply Permutation_app_head.
  rewrite !app_assoc. apply Permutation_app_tail, Permutation_app_comm.
Qed.

(** The three rectangles cut by one split. *)
Lemma split_geometry (r o : Rect) :
  x o = x r -> y o = y r ->
  0 <= width o <= width r -> 0 <= height o <= height r ->
  let r1 := mkRect (x r) (y r + height o) (width o) (height r - height o) in
  let r2 := mkRect (x r + width o) (y r) (width r - width o) (height r) in
  area o + (area r1 + area r2) = area r
  /\ within o r /\ within r1 r /\ within r2 r
  /\ ~ overlap o r1 /\ ~ overlap o r2 /\ ~ overlap r1 r2.
Proof.
  intros Hx Hy Hw Hh r1 r2. unfold area, within, overlap, inside. simpl.
  repeat split; try lia; try (intros; lia);
    intros (px & py & ? & ?); lia.
Qed.

Lemma tiles_parts (σ : Store) (t : PackRegion) :
  well_split σ t -> placed σ t ->
  total_area (parts σ t) = area (rect_of t)
  /\ pairwise_disjoint (parts σ t)
  /\ Forall (fun p => within p (rect_of t)) (parts σ t).
Proof.
  induction t as [r | r q s1 IH1 s2 IH2]; simpl.
  - intros _ _. unfold total_area. simpl. split; [lia |]. split.
    + repeat constructor.
    + constructor; [apply within_refl | constructor].
  - intros (Hqw & Hqh & R1 & R2 & W1 & W2) (Hx & Hy & P1 & P2).
    destruct (IH1 W1 P1) as (A1 & D1 & I1).
    destruct (IH2 W2 P2) as (A2 & D2 & I2).
    destruct (split_geometry r (σ q) Hx Hy Hqw Hqh)
      as (HA & Io & I1r & I2r & Do1 & Do2 & D12).
    rewrite <- R1 in HA, I1r, Do1, D12. rewrite <- R2 in HA, I2r, Do2, D12.
    rewrite Forall_forall in I1, I2.
    split; [| split].
    + change (area (σ q) + total_area (parts σ s1 ++ parts σ s2) = area r).
      rewrite total_area_app. lia.
    + constructor.
      * apply Forall_app. split; apply Forall_forall; intros a Ha.
        -- eapply disjoint_within; [apply within_refl | by apply I1 | done].
        -- eapply disjoint_within; [apply within_refl | by apply I2 | done].
      * apply pairwise_disjoint_app; [done | done |].
        intros a b Ha Hb. eapply disjoint_within; [by apply I1 | by apply I2 | done].
    + constructor; [done |].
      apply Forall_app. split; apply Forall_forall; intros a Ha.
      * eapply within_trans; [by apply I1 | done].
      * eapply within_trans; [by apply I2 | done].
Qed.

Lemma tiles_of_invariants (σ : Store) (t : PackRegion) :
  well_split σ t -> placed σ t -> tiles σ t.
Proof.
  intros Hw Hp. destruct (tiles_parts σ t Hw Hp) as (A & D & I).
  pose proof (parts_pieces σ t) as Hperm. unfold tiles.
  split; [| split].
  - by rewrite <- (total_area_perm _ _ Hperm).
  - by apply (pairwise_disjoint_perm _ _ Hperm).
  - by rewrite <- Hperm.
Qed.

(** ** [placed] is an invariant of packing fresh objects *)

Lemma placed_ext (σ σ' : Store) (t : PackRegion) :
  (forall q, q ∈ occupant_refs t -> σ' q = σ q) ->
  placed σ t -> placed σ' t.
Proof.
  induction t as [r | r q s1 IH1 s2 IH2]; simpl; [done |].
  intros Hs (Hx & Hy & P1 & P2).
  rewrite (Hs q) by apply list_elem_of_here.
  repeat split; [done | done | apply IH1 | apply IH2]; try done;
    intros q' Hq'; apply Hs, list_elem_of_further, elem_of_app; auto.
Qed.

Lemma pack_occupant_refs (t : PackRegion) (p : ref) :
  forall (σ σ' : Store) t', pack t p σ = (true, σ', t') ->
    forall q, q ∈ occupant_refs t' -> q = p \/ q ∈ occupant_refs t.
Proof.
  induction t as [r | r q0 s1 IH1 s2 IH2]; intros σ σ' t' H q.
  - simpl in H. destruct (_ || _); [done |]. injection H as <- <-.
    simpl. rewrite elem_of_cons. tauto.
  - apply pack_occupied_true in H as [(s1' & E & ->) | (s2' & E & ->)];
      simpl; rewrite !elem_of_cons, !elem_of_app; intros [-> | [Hq | Hq]];
      auto.
    + destruct (IH1 _ _ _ E _ Hq); auto.
    + destruct (IH2 _ _ _ E _ Hq); auto.
Qed.

Lemma pack_placed (t : PackRegion) (p : ref) :
  forall (σ σ' : Store) t', placed σ t -> p ∉ occupant_refs t ->
    pack t p σ = (true, σ', t') -> placed σ' t'.
Proof.
  induction t as [r | r q s1 IH1 s2 IH2]; intros σ σ' t' Hpl Hfresh H.
  - simpl in H. destruct (_ || _); [done |]. injection H as <- <-.
    simpl. by rewrite fn_lookup_insert.
  - simpl in Hfresh. rewrite not_elem_of_cons, not_elem_of_app in Hfresh.
    destruct Hfresh as (Hne & F1 & F2). destruct Hpl as (Hx & Hy & P1 & P2).
    apply pack_occupied_true in H as [(s1' & E & ->) | (s2' & E & ->)];
      destruct (pack_store _ _ _ _ _ _ E) as (Hother & _);
      simpl; rewrite (Hother q) by done; repeat split; try done.
    + eapply IH1; eauto.
    + apply (placed_ext σ); [| done].
      intros q' Hq'. apply Hother. by intros ->.
    + apply (placed_ext σ); [| done].
      intros q' Hq'. apply Hother. by intros ->.
    + eapply IH2; eauto.
Qed.

Lemma pack_seq_placed (ps : list ref) :
  forall t (σ σ' : Store) t', placed σ t -> NoDup ps ->
    (forall p, p ∈ ps -> p ∉ occupant_refs t) ->
    pack_seq t σ ps = Some (σ', t') -> placed σ' t'.
Proof.
  induction ps as [| p ps IH]; intros t σ σ' t' Hpl Hnd Hfresh; simpl.
  - by intros [= <- <-].
  - destruct (pack t p σ) as [[b σ1] t1] eqn:E. destruct b; [| done].
    apply NoDup_cons in Hnd as [Hp Hnd].
    apply IH; [| done |].
    + eapply pack_placed; [done | | exact E].
      apply Hfresh, list_elem_of_here.
    + intros q Hq Hin.
      destruct (pack_occupant_refs _ _ _ _ _ E _ Hin) as [-> | Hin'];
        [done |].
      by apply (Hfresh q); [apply list_elem_of_further |].
Qed.

Lemma pack_seq_app (ps1 ps2 : list ref) :
  forall t (σ σ' : Store) t', pack_seq t σ (ps1 ++ ps2) = Some (σ', t') ->
    exists σ1 t1, pack_seq t σ ps1 = Some (σ1, t1)
                  /\ pack_seq t1 σ1 ps2 = Some (σ', t').
Proof.
  induction ps1 as [| p ps1 IH]; intros t σ σ' t'; simpl; [eauto |].
  destruct (pack t p σ) as [[b σ1] t1] eqn:E. destruct b; [| done]. apply IH.
Qed.

(** ** JSON codec *)

Lemma dict_set_elem {V : Type} (d : list (list N * V)) (k k' : list N)
    (v v' : V) :
  (k', v') ∈ JsonTextureAtlasMap.dict_set d k v ->
  (k' = k /\ v' = v) \/ (k', v') ∈ d.
Proof.
  induction d as [| [k0 v0] d IH]; simpl.
  - rewrite list_elem_of_singleton. intros [= -> ->]. auto.
  - destruct (decide (k0 = k)) as [-> | Hne]; rewrite !elem_of_cons.
    + intros [[= -> ->] | H]; auto.
    + intros [[= -> ->] | H]; [auto |].
      destruct (IH H) as [? | ?]; auto.
Qed.

Lemma map_value_elem (σ : Store) (atlas : TextureAtlas) (k : list N)
    (es : list JsonTextureAtlasMap.entry) :
  (k, es) ∈ JsonTextureAtlasMap.map_value σ atlas ->
  exists t, t ∈ textures atlas /\ name t = k
    /\ es = map (fun f => JsonTextureAtlasMap.frame_entry atlas (σ f))
              (frames t).
Proof.
  unfold JsonTextureAtlasMap.map_value.
  set (step := fun d texture => JsonTextureAtlasMap.dict_set d _ _).
  assert (forall ts d,
            (k, es) ∈ fold_left step ts d ->
            (k, es) ∈ d
            \/ exists t, t ∈ ts /\ name t = k
                 /\ es = map (fun f =>
                                JsonTextureAtlasMap.frame_entry atlas (σ f))
                           (frames t)) as Hgen.
  { induction ts as [| t ts IH]; simpl; intros d H; [auto |].
    destruct (IH _ H) as [Hd | (t' & Ht' & Hk & He)].
    - unfold step in Hd. apply dict_set_elem in Hd as [[-> ->] | Hd]; [| auto].
      right. exists t. split; [apply list_elem_of_here | auto].
    - right. exists t'. split; [by apply list_elem_of_further | auto]. }
  intros H. destruct (Hgen _ _ H) as [Hnil | Ht]; [| done].
  by apply not_elem_of_nil in Hnil.
Qed.

(** C4. Every frame entry the JSON codec emits is
    [(x, atlas_height - y - height, width, height)] for a frame of a texture
    of the atlas, so that the emitted second component plus the frame's
    height plus the frame's [y] is the atlas height. *)
Theorem json_flip_law (σ : Store) (atlas : TextureAtlas) (k : list N)
    (es : list JsonTextureAtlasMap.entry) (j : nat) (jx jy jw jh : Z) :
  (k, es) ∈ JsonTextureAtlasMap.map_value σ atlas ->
  es !! j = Some (jx, jy, jw, jh) ->
  exists t f,
    t ∈ textures atlas /\ name t = k /\ frames t !! j = Some f
    /\ jx = x (σ f) /\ jw = width (σ f) /\ jh = height (σ f)
    /\ jy = atlas_height atlas - y (σ f) - height (σ f)
    /\ jy + height (σ f) + y (σ f) = atlas_height atlas.
Proof.
  intros Hk Hj.
  apply map_value_elem in Hk as (t & Ht & Hn & ->).
  rewrite list_lookup_fmap in Hj.
  destruct (frames t !! j) as [f |] eqn:Hf; [| done].
  injection Hj as <- <- <- <-.
  exists t, f. repeat split; try done; lia.
Qed.

Lemma json_flip_law_witness :
  pack_texture (TextureAtlas_init 5 5) (mkTexture [97%N] [0%nat]) example_store
  = (true, <[0%nat := mkRect 0 0 5 2]> example_store, example_atlas)
  /\ exists t f,
       t ∈ textures example_atlas /\ name t = [97%N]
       /\ frames t !! 0%nat = Some f
       /\ 0 = x (example_store f) /\ 5 = width (example_store f)
       /\ 2 = height (example_store f)
       /\ 3 = atlas_height example_atlas - y (example_store f)
              - height (example_store f)
       /\ 3 + height (example_store f) + y (example_store f)
          = atlas_height example_atlas.
Proof.
  split; [reflexivity |].
  apply (json_flip_law example_store example_atlas [97%N] [(0, 3, 5, 2)]
           0%nat 0 3 5 2).
  - apply list_elem_of_here.
  - reflexivity.
Defined.

(** ** Frame construction *)

(** [Frame.__init__] fails exactly when the image library fails to open the
    source; otherwise the frame is created at the origin with the width and
    height the library reports, unchanged and unchecked.  Which sizes the
    library can report is decided outside the repository. *)
Lemma frame_init_takes_reported_size
    (image_size : filename -> option (Z * Z)) (f : filename) :
  (Frame_init image_size f = None <-> image_size f = None)
  /\ (forall w h, image_size f = Some (w, h) ->
        exists frame,
          Frame_init image_size f = Some frame
          /\ frame_filename frame = f
          /\ x (frame_rect frame) = 0 /\ y (frame_rect frame) = 0
          /\ width (frame_rect frame) = w /\ height (frame_rect frame) = h).
Proof.
  unfold Frame_init. split.
  - destruct (image_size f) as [[w h] |]; split; intros H; done.
  - intros w h ->. eexists. split; [reflexivity |]. simpl. auto.
Qed.

(** ** The auto-growth loop *)

Lemma pack_free_too_wide (r : Rect) (p : ref) (σ : Store) :
  width (σ p) > width r -> pack (Free r) p σ = (false, σ, Free r).
Proof.
  intros H. simpl.
  replace (width (σ p) >? width r) with true by lia. reflexivity.
Qed.

Lemma pack_free_fits (r : Rect) (p : ref) (σ : Store) :
  width (σ p) <= width r -> height (σ p) <= height r ->
  pack (Free r) p σ
  = (true, <[p := set_pos (σ p) (x r) (y r)]> σ,
     Occupied r p
       (Free (mkRect (x r) (y r + height (σ p))
                     (width (σ p)) (height r - height (σ p))))
       (Free (mkRect (x r + width (σ p)) (y r)
                     (width r - width (σ p)) (height r)))).
Proof.
  intros Hw Hh. simpl.
  replace (width (σ p) >? width r) with false by lia.
  replace (height (σ p) >? height r) with false by lia.
  simpl. rewrite fn_lookup_insert. reflexivity.
Qed.

(** When the frame that fails is the first frame of its texture, as it always
    is for a texture of one frame, the growth step of the code is the one of
    the specification. *)
Lemma grow_when_first_frame_fails (atlas : TextureAtlas) (nm : list N)
    (f : ref) (fs : list ref) (σ σ' : Store) (reg' : PackRegion) (w h : Z) :
  pack (region atlas) f σ = (false, σ', reg') ->
  pack_texture atlas (mkTexture nm (f :: fs)) σ
  = (false, σ, mkAtlas (region atlas) (textures atlas ++ [mkTexture nm (f :: fs)]))
  /\ failing_frame (region atlas) (f :: fs) σ = Some f
  /\ forall atlas',
       grow σ atlas' (mkTexture nm (f :: fs)) w h
       = grow_by_failing_frame σ atlas' f w h.
Proof.
  intros E. pose proof (pack_false _ _ _ _ _ E) as [-> ->].
  unfold pack_texture. simpl. rewrite E. done.
Qed.

(** One pass of the loop over the two-frame texture on a canvas of width 1:
    the first frame is placed, the second is rejected by both sub-regions,
    and the canvas grows in height by the height of the first frame. *)
Lemma two_frame_pass (σ : Store) (h : Z) :
  1 <= h ->
  σ 0%nat = mkRect (x (σ 0%nat)) (y (σ 0%nat)) 1 1 ->
  σ 1%nat = mkRect (x (σ 1%nat)) (y (σ 1%nat)) 2 1 ->
  let σ' := <[0%nat := mkRect 0 0 1 1]> σ in
  pack_texture (TextureAtlas_init 1 h) two_frame_texture σ
  = (false, σ',
     mkAtlas
       (Occupied (mkRect 0 0 1 h) 0%nat
          (Free (mkRect 0 1 1 (h - 1))) (Free (mkRect 1 0 0 h)))
       [two_frame_texture])
  /\ for_textures (TextureAtlas_init 1 h) [two_frame_texture] σ 1 h
     = Grown σ' 1 (h + 1).
Proof.
  intros Hh H0 H1 σ'.
  assert (pack (Free (mkRect 0 0 1 h)) 0%nat σ
          = (true, σ',
             Occupied (mkRect 0 0 1 h) 0%nat
               (Free (mkRect 0 1 1 (h - 1))) (Free (mkRect 1 0 0 h)))) as E0.
  { rewrite pack_free_fits; rewrite H0; simpl; try lia. reflexivity. }
  assert (σ' 1%nat = σ 1%nat) as E1 by (by unfold σ'; rewrite fn_lookup_insert_ne).
  assert (pack (Occupied (mkRect 0 0 1 h) 0%nat
                  (Free (mkRect 0 1 1 (h - 1))) (Free (mkRect 1 0 0 h)))
               1%nat σ'
          = (false, σ',
             Occupied (mkRect 0 0 1 h) 0%nat
               (Free (mkRect 0 1 1 (h - 1))) (Free (mkRect 1 0 0 h)))) as E2.
  { apply pack_occupied_false; apply pack_free_too_wide;
      rewrite E1, H1; simpl; lia. }
  assert (pack_texture (TextureAtlas_init 1 h) two_frame_texture σ
          = (false, σ',
             mkAtlas
               (Occupied (mkRect 0 0 1 h) 0%nat
                  (Free (mkRect 0 1 1 (h - 1))) (Free (mkRect 1 0 0 h)))
               [two_frame_texture])) as E3.
  { unfold pack_texture, two_frame_texture, TextureAtlas_init.
    cbn [region frames textures pack_frames]. rewrite E0, E2. reflexivity. }
  split; [exact E3 |].
  cbn [for_textures]. rewrite E3.
  assert (σ' 0%nat = mkRect 0 0 1 1) as E4
    by (unfold σ'; by rewrite fn_lookup_insert).
  unfold grow, perimeter, two_frame_texture.
  cbn [region get_free_regions app max_by rect_of width height frames head].
  rewrite ?E4.
  replace (2 * (0 + h) >? 2 * (1 + (h - 1))) with false by lia.
  reflexivity.
Qed.

Lemma two_frame_loop (fuel : nat) :
  forall (σ : Store) (h : Z),
    1 <= h ->
    σ 0%nat = mkRect (x (σ 0%nat)) (y (σ 0%nat)) 1 1 ->
    σ 1%nat = mkRect (x (σ 1%nat)) (y (σ 1%nat)) 2 1 ->
    growth_loop fuel [two_frame_texture] σ 1 h = OutOfFuel.
Proof.
  induction fuel as [| fuel IH]; intros σ h Hh H0 H1; [reflexivity |].
  cbn [growth_loop].
  destruct (two_frame_pass σ h Hh H0 H1) as [_ ->].
  apply IH; [lia | |].
  - by rewrite fn_lookup_insert.
  - by rewrite fn_lookup_insert_ne.
Qed.

(** C3 at the failing input: one texture whose frames are 1x1 and 2x1, on
    the initial 1x1 canvas.  The first frame is placed and the second frame
    is the one that fails.  The rule of the specification compares the widest
    free region (width 1) with the failing frame (width 2) and adds 2 to the
    width; the code compares it with [frames[0]] (width 1) and adds the height
    of [frames[0]] to the height. *)
Theorem growth_uses_first_frame :
  let σ' : Store := <[0%nat := mkRect 0 0 1 1]> two_frame_store in
  let atlas' :=
    mkAtlas
      (Occupied (mkRect 0 0 1 1) 0%nat
         (Free (mkRect 0 1 1 0)) (Free (mkRect 1 0 0 1)))
      [two_frame_texture] in
  pack_texture (TextureAtlas_init 1 1) two_frame_texture two_frame_store
  = (false, σ', atlas')
  /\ failing_frame (Free (mkRect 0 0 1 1)) (frames two_frame_texture)
       two_frame_store = Some 1%nat
  /\ max_by (fun r => perimeter (rect_of r)) (get_free_regions (region atlas'))
     = Some (Free (mkRect 0 1 1 0))
  /\ grow σ' atlas' two_frame_texture 1 1 = Some (1, 2)
  /\ grow_by_failing_frame σ' atlas' 1%nat 1 1 = Some (3, 1)
  /\ for_textures (TextureAtlas_init 1 1) [two_frame_texture]
       two_frame_store 1 1 = Grown σ' 1 2.
Proof. repeat split; reflexivity. Qed.

(** C5 at the failing input: for the single texture with frames 1x1 and 2x1
    (all of positive size) the loop never finishes.  Whatever the number of
    passes allowed, [main] is still growing: every pass adds 1 to the height
    and leaves the width at 1, too narrow for the second frame. *)
Theorem growth_loop_diverges (fuel : nat) :
  positive (two_frame_store 0%nat) /\ positive (two_frame_store 1%nat)
  /\ main_pack fuel [two_frame_texture] two_frame_store = OutOfFuel
  /\ forall n : nat,
       exists σ, Nat.iter n
                   (fun s => match s with
                             | Grown σ w h =>
                                 for_textures (TextureAtlas_init w h)
                                   [two_frame_texture] σ w h
                             | other => other
                             end)
                   (Grown two_frame_store 1 1)
                 = Grown σ 1 (1 + Z.of_nat n)
                   /\ σ 0%nat = mkRect (x (σ 0%nat)) (y (σ 0%nat)) 1 1
                   /\ σ 1%nat = mkRect (x (σ 1%nat)) (y (σ 1%nat)) 2 1.
Proof.
  split; [by compute |]. split; [by compute |]. split.
  - change (growth_loop fuel [two_frame_texture] two_frame_store 1 1
            = OutOfFuel).
    by apply two_frame_loop.
  - induction n as [| n (σ & E & H0 & H1)].
    + exists two_frame_store. by repeat split.
    + rewrite Nat.iter_succ, E.
      destruct (two_frame_pass σ (1 + Z.of_nat n)) as [_ ->]; [lia | done.. |].
      eexists. split; [f_equal; lia |].
      split; [by rewrite fn_lookup_insert | by rewrite fn_lookup_insert_ne].
Qed.

(** ** The sort of [main] is a stable sort, largest key first *)

Lemma insert_desc_perm {A : Type} (k : Z) (a : A) (l : list (Z * A)) :
  insert_desc k a l ≡ₚ (k, a) :: l.
Proof.
  induction l as [| [k' a'] l IH]; simpl; [done |].
  destruct (k' >? k); [| done].
  rewrite IH. apply Permutation_swap.
Qed.

Lemma sort_desc_perm {A : Type} (l : list (Z * A)) : sort_desc l ≡ₚ l.
Proof.
  induction l as [| [k a] l IH]; simpl; [done |].
  by rewrite insert_desc_perm, IH.
Qed.

Lemma insert_desc_filter {A : Type} (k0 k : Z) (a : A) (l : list (Z * A)) :
  filter (fun p => p.1 = k) (insert_desc k0 a l)
  = filter (fun p => p.1 = k) ((k0, a) :: l).
Proof.
  induction l as [| [k' a'] l IH]; simpl; [done |].
  destruct (k' >? k0) eqn:E; [| done].
  rewrite (filter_cons _ (k', a')), IH, !filter_cons. simpl.
  repeat case_decide; try done; lia.
Qed.

Lemma sort_desc_filter {A : Type} (k : Z) (l : list (Z * A)) :
  filter (fun p => p.1 = k) (sort_desc l) = filter (fun p => p.1 = k) l.
Proof.
  induction l as [| [k0 a] l IH]; simpl; [done |].
  rewrite insert_desc_filter, !filter_cons, IH. done.
Qed.

Lemma insert_desc_sorted {A : Type} (k : Z) (a : A) (l : list (Z * A)) :
  ForallOrdPairs (fun p q => p.1 >= q.1) l ->
  ForallOrdPairs (fun p q => p.1 >= q.1) (insert_desc k a l).
Proof.
  induction 1 as [| [k' a'] l Hk' Hl IH]; simpl.
  - repeat constructor.
  - destruct (k' >? k) eqn:E.
    + constructor; [| done].
      rewrite insert_desc_perm. constructor; [simpl; lia | done].
    + constructor; [| by constructor].
      constructor; [simpl; lia |].
      eapply Forall_impl; [exact Hk' |]. simpl. intros; lia.
Qed.

Lemma sort_desc_sorted {A : Type} (l : list (Z * A)) :
  ForallOrdPairs (fun p q => p.1 >= q.1) (sort_desc l).
Proof.
  induction l as [| [k a] l IH]; simpl; [constructor |].
  by apply insert_desc_sorted.
Qed.

Lemma zip_keys {A : Type} (key : A -> option Z) (l : list A) (ks : list Z) :
  Forall2 (fun a k => key a = Some k) l ks ->
  map snd (zip ks l) = l
  /\ Forall (fun p => key p.2 = Some p.1) (zip ks l).
Proof.
  induction 1 as [| a k l ks Hk _ [IH1 IH2]]; simpl; [done |].
  split; [by rewrite IH1 | by constructor].
Qed.

Lemma filter_keyed {A : Type} (key : A -> option Z) (k : Z)
    (s : list (Z * A)) :
  Forall (fun p => key p.2 = Some p.1) s ->
  filter (fun a => key a = Some k) (map snd s)
  = map snd (filter (fun p => p.1 = k) s).
Proof.
  induction 1 as [| [k' a] s Hk _ IH]; simpl; [done |].
  rewrite !filter_cons, IH. simpl in *.
  repeat case_decide; try done; congruence.
Qed.

Lemma descending_keyed {A : Type} (key : A -> option Z) (s : list (Z * A)) :
  Forall (fun p => key p.2 = Some p.1) s ->
  ForallOrdPairs (fun p q => p.1 >= q.1) s ->
  descending key (map snd s).
Proof.
  unfold descending. intros Hk Hs. revert Hk.
  induction Hs as [| [k a] s Hhead _ IH]; simpl; intros Hk; [constructor |].
  inversion Hk as [| ? ? Hka Hks]; subst. constructor; [| auto].
  rewrite Forall_forall in Hhead. rewrite Forall_forall in Hks.
  apply Forall_forall. intros b Hb. apply list_elem_of_fmap in Hb as ([k' b'] & -> & Hin).
  exists k, k'. repeat split; [done | by apply (Hks _ Hin) |].
  by apply (Hhead _ Hin).
Qed.

(** [sorted(..., key=..., reverse=True)] returns a permutation of its input,
    largest key first, in which items of equal key keep their input order. *)
Lemma sorted_reverse_stable {A : Type} (key : A -> option Z) (l l' : list A) :
  sorted_reverse key l = Some l' ->
  l' ≡ₚ l
  /\ descending key l'
  /\ forall k, filter (fun a => key a = Some k) l'
               = filter (fun a => key a = Some k) l.
Proof.
  unfold sorted_reverse. destruct (mapM key l) as [ks |] eqn:E; [| done].
  simpl. intros [= <-].
  apply mapM_Some in E. destruct (zip_keys key l ks E) as [Hl Hk].
  assert (Forall (fun p => key p.2 = Some p.1) (sort_desc (zip ks l))) as Hk'
    by (by rewrite sort_desc_perm).
  split; [| split].
  - rewrite <- Hl at 2. apply fmap_Permutation, sort_desc_perm.
  - apply descending_keyed; [done | apply sort_desc_sorted].
  - intros k. rewrite (filter_keyed key k _ Hk'), sort_desc_filter.
    rewrite <- (filter_keyed key k _ Hk). by rewrite Hl.
Qed.

(** ** Binary codec *)

(** C2 at the failing input: textures "é" and "b".  The string section is
    [c3 a9 00 62 00], five bytes, but the sizes and offsets are computed with
    [len(name)], which counts "é" as one: the header announces four bytes and
    puts the frame section at 68 instead of 69, and the record of "b" gives
    name offset 2, where the terminator of "é" stands.  The name read there
    is empty, "b" starts one byte later, and the frame record read for "b" is
    (0, 256, 256, 256) instead of (0, 1, 1, 1). *)
Theorem binary_offsets_count_code_points :
  main_pack 2 (load_textures 0%nat accent_specs empty_store).2
              (load_textures 0%nat accent_specs empty_store).1
  = Done (accent_store, accent_atlas)
  /\ BinaryTextureAtlasMap.write accent_store accent_atlas = Some accent_bytes
  /\ (exists hd rec,
        BinaryTextureAtlasMap.read_header accent_bytes = Some hd
        /\ BinaryTextureAtlasMap.string_section_offset hd = 64
        /\ BinaryTextureAtlasMap.string_section_size hd = 4
        /\ BinaryTextureAtlasMap.frame_section_offset hd = 68
        /\ BinaryTextureAtlasMap.read_texture accent_bytes
             (BinaryTextureAtlasMap.texture_section_offset hd + 1 * 12)
           = Some rec
        /\ BinaryTextureAtlasMap.name_offset rec = 2
        /\ utf8_encode [233%N] = Some [xc3; xa9]
        /\ utf8_encode [98%N] = Some [x62]
        /\ BinaryTextureAtlasMap.read_cstring accent_bytes
             (BinaryTextureAtlasMap.string_section_offset hd
              + BinaryTextureAtlasMap.name_offset rec) = Some []
        /\ BinaryTextureAtlasMap.read_cstring accent_bytes
             (BinaryTextureAtlasMap.string_section_offset hd
              + BinaryTextureAtlasMap.name_offset rec + 1) = Some [x62]
        /\ accent_store 1%nat = mkRect 0 1 1 1
        /\ BinaryTextureAtlasMap.read_frame accent_bytes
             (BinaryTextureAtlasMap.frame_section_offset hd
              + BinaryTextureAtlasMap.frame_offset rec + 0 * 16)
           = Some (mkRect 0 256 256 256))
  /\ ~ BinaryTextureAtlasMap.offset_contract accent_store accent_atlas
         accent_bytes.
Proof.
  split; [reflexivity |]. split; [by vm_compute |]. split.
  - eexists _, _. split; [by vm_compute |].
    repeat split; by vm_compute.
  - intros (hd & Hhd & Hall).
    destruct (Hall 1%nat (mkTexture [98%N] [1%nat]) eq_refl)
      as (rec & Hrec & _ & (enc & Henc & Hstr) & _).
    vm_compute in Hhd. injection Hhd as <-.
    vm_compute in Hrec. injection Hrec as <-.
    vm_compute in Henc. injection Henc as <-.
    vm_compute in Hstr. discriminate Hstr.
Qed.

(** ** The binary layout read back *)

Lemma byte_of_N_to_N (n : N) : (n < 256)%N -> Byte.to_N (byte_of_N n) = n.
Proof.
  intros Hn. unfold byte_of_N. rewrite N.mod_small by done.
  destruct (Byte.of_N n) as [b |] eqn:E; simpl.
  - by apply Byte.to_of_N.
  - apply Byte.of_N_None_iff in E. lia.
Qed.

Lemma byte_of_Z_value (v : Z) :
  0 <= v -> Z.of_N (Byte.to_N (byte_of_N (Z.to_N v))) = v mod 256.
Proof.
  intros Hv. unfold byte_of_N.
  assert (Z.to_N v mod 256 < 256)%N as Hlt by (apply N.mod_lt; lia).
  destruct (Byte.of_N (Z.to_N v mod 256)) as [b |] eqn:E; simpl.
  - apply Byte.to_of_N in E. rewrite E, N2Z.inj_mod, Z2N.id by done. done.
  - apply Byte.of_N_None_iff in E. lia.
Qed.

Lemma read_I_skip (pre rest : list byte) (k : Z) :
  0 <= k ->
  BinaryTextureAtlasMap.read_I (pre ++ rest) (len pre + k)
  = BinaryTextureAtlasMap.read_I rest k.
Proof.
  intros Hk. unfold BinaryTextureAtlasMap.read_I, BinaryTextureAtlasMap.slice, len.
  replace (Z.of_nat (length pre) + k <? 0) with false by lia.
  replace (k <? 0) with false by lia.
  replace (Z.to_nat (Z.of_nat (length pre) + k))
    with (length pre + Z.to_nat k)%nat by lia.
  by rewrite drop_app_add.
Qed.

Lemma pack_I_read (v : Z) (b rest : list byte) :
  pack_I v = Some b ->
  length b = 4%nat /\ BinaryTextureAtlasMap.read_I (b ++ rest) 0 = Some v.
Proof.
  unfold pack_I. destruct (_ && _) eqn:E; [| done]. intros [= <-].
  split; [done |].
  unfold BinaryTextureAtlasMap.read_I, BinaryTextureAtlasMap.slice. simpl.
  rewrite !byte_of_Z_value by (try apply Z.div_pos; lia).
  f_equal.
  assert (0 <= v < 2 ^ 32) as Hv by lia.
  change (2 ^ 8) with 256. change (2 ^ 16) with 65536.
  change (2 ^ 24) with 16777216. change (2 ^ 32) with 4294967296 in Hv.
  clear E. Z.div_mod_to_equations. lia.
Qed.

Lemma struct_pack_cons (v : Z) (vs : list Z) (bs : list byte) :
  struct_pack (v :: vs) = Some bs ->
  exists b bs', pack_I v = Some b /\ struct_pack vs = Some bs'
                /\ bs = b ++ bs'.
Proof.
  unfold struct_pack. simpl.
  destruct (pack_I v) as [b |]; [| done]. simpl.
  destruct (mapM pack_I vs) as [bss |]; [| done]. simpl.
  intros [= <-]. by exists b, (concat bss).
Qed.

(** Field [i] of a packed record is read back at [4 * i]. *)
Lemma struct_pack_read (vs : list Z) :
  forall (bs rest : list byte) (i : nat) (v : Z),
    struct_pack vs = Some bs ->
    vs !! i = Some v ->
    BinaryTextureAtlasMap.read_I (bs ++ rest) (4 * Z.of_nat i) = Some v.
Proof.
  induction vs as [| v0 vs IH]; intros bs rest i v Hp Hi; [done |].
  apply struct_pack_cons in Hp as (b & bs' & Hb & Hbs & ->).
  destruct (pack_I_read v0 b (bs' ++ rest) Hb) as [Hlen Hread].
  rewrite <- app_assoc.
  destruct i as [| i]; simpl in Hi.
  - injection Hi as <-. exact Hread.
  - replace (4 * Z.of_nat (S i)) with (len b + 4 * Z.of_nat i)
      by (unfold len; lia).
    rewrite read_I_skip by lia. by apply IH.
Qed.

Lemma struct_pack_length (vs : list Z) :
  forall bs, struct_pack vs = Some bs -> len bs = 4 * len vs.
Proof.
  induction vs as [| v0 vs IH]; intros bs Hp.
  - by injection Hp as <-.
  - apply struct_pack_cons in Hp as (b & bs' & Hb & Hbs & ->).
    destruct (pack_I_read v0 b [] Hb) as [Hlen _].
    specialize (IH _ Hbs). unfold len in *. rewrite length_app. simpl. lia.
Qed.

Lemma read_texture_skip (pre rest : list byte) (k : Z) :
  0 <= k ->
  BinaryTextureAtlasMap.read_texture (pre ++ rest) (len pre + k)
  = BinaryTextureAtlasMap.read_texture rest k.
Proof.
  intros Hk. unfold BinaryTextureAtlasMap.read_texture.
  rewrite <- !Z.add_assoc, !read_I_skip by lia. done.
Qed.

Lemma read_frame_skip (pre rest : list byte) (k : Z) :
  0 <= k ->
  BinaryTextureAtlasMap.read_frame (pre ++ rest) (len pre + k)
  = BinaryTextureAtlasMap.read_frame rest k.
Proof.
  intros Hk. unfold BinaryTextureAtlasMap.read_frame.
  rewrite <- !Z.add_assoc, !read_I_skip by lia. done.
Qed.

Lemma read_cstring_skip (pre rest : list byte) (k : Z) :
  0 <= k ->
  BinaryTextureAtlasMap.read_cstring (pre ++ rest) (len pre + k)
  = BinaryTextureAtlasMap.read_cstring rest k.
Proof.
  intros Hk. unfold BinaryTextureAtlasMap.read_cstring, len.
  replace (Z.of_nat (length pre) + k <? 0) with false by lia.
  replace (k <? 0) with false by lia.
  replace (Z.to_nat (Z.of_nat (length pre) + k))
    with (length pre + Z.to_nat k)%nat by lia.
  by rewrite drop_app_add.
Qed.

Lemma read_texture_here (a b c : Z) (rec rest : list byte) :
  struct_pack [a; b; c] = Some rec ->
  BinaryTextureAtlasMap.read_texture (rec ++ rest) 0
  = Some (BinaryTextureAtlasMap.mkTextureRecord a b c).
Proof.
  intros Hp. unfold BinaryTextureAtlasMap.read_texture.
  assert (BinaryTextureAtlasMap.read_I (rec ++ rest) 0 = Some a) as ->
    by exact (struct_pack_read _ _ rest 0%nat a Hp eq_refl).
  assert (BinaryTextureAtlasMap.read_I (rec ++ rest) (0 + 4) = Some b) as ->
    by exact (struct_pack_read _ _ rest 1%nat b Hp eq_refl).
  assert (BinaryTextureAtlasMap.read_I (rec ++ rest) (0 + 8) = Some c) as ->
    by exact (struct_pack_read _ _ rest 2%nat c Hp eq_refl).
  done.
Qed.

Lemma read_frame_here (a b c d : Z) (rec rest : list byte) :
  struct_pack [a; b; c; d] = Some rec ->
  BinaryTextureAtlasMap.read_frame (rec ++ rest) 0 = Some (mkRect a b c d).
Proof.
  intros Hp. unfold BinaryTextureAtlasMap.read_frame.
  assert (BinaryTextureAtlasMap.read_I (rec ++ rest) 0 = Some a) as ->
    by exact (struct_pack_read _ _ rest 0%nat a Hp eq_refl).
  assert (BinaryTextureAtlasMap.read_I (rec ++ rest) (0 + 4) = Some b) as ->
    by exact (struct_pack_read _ _ rest 1%nat b Hp eq_refl).
  assert (BinaryTextureAtlasMap.read_I (rec ++ rest) (0 + 8) = Some c) as ->
    by exact (struct_pack_read _ _ rest 2%nat c Hp eq_refl).
  assert (BinaryTextureAtlasMap.read_I (rec ++ rest) (0 + 12) = Some d) as ->
    by exact (struct_pack_read _ _ rest 3%nat d Hp eq_refl).
  done.
Qed.

Lemma names_before_S (t : Texture) (ts : list Texture) (i : nat) :
  names_before (t :: ts) (S i) = len (name t) + 1 + names_before ts i.
Proof. reflexivity. Qed.

Lemma frames_before_S (t : Texture) (ts : list Texture) (i : nat) :
  frames_before (t :: ts) (S i) = len (frames t) + frames_before ts i.
Proof. reflexivity. Qed.

Lemma names_before_nonneg (ts : list Texture) (i : nat) :
  0 <= names_before ts i.
Proof.
  revert i. induction ts as [| t ts IH]; intros [| i]; try done.
  rewrite names_before_S. specialize (IH i). unfold len. lia.
Qed.

Lemma frames_before_nonneg (ts : list Texture) (i : nat) :
  0 <= frames_before ts i.
Proof.
  revert i. induction ts as [| t ts IH]; intros [| i]; try done.
  rewrite frames_before_S. specialize (IH i). unfold len. lia.
Qed.

(** *** Texture section *)

Lemma texture_section_read (ts : list Texture) :
  forall (s f : Z) (b : list byte),
    BinaryTextureAtlasMap.texture_section ts s f = Some b ->
    len b = len ts * 12
    /\ forall (i : nat) (t : Texture) (rest : list byte),
         ts !! i = Some t ->
         BinaryTextureAtlasMap.read_texture (b ++ rest) (Z.of_nat i * 12)
         = Some (BinaryTextureAtlasMap.mkTextureRecord
                   (s + names_before ts i) (len (frames t))
                   (f + frames_before ts i * 16)).
Proof.
  induction ts as [| t0 ts IH]; intros s f b; simpl.
  - intros [= <-]. split; [done |]. intros i t rest Hi. done.
  - destruct (struct_pack _) as [rec |] eqn:Hrec; [| done]. simpl.
    destruct (BinaryTextureAtlasMap.texture_section ts _ _) as [b' |] eqn:Hb';
      [| done].
    simpl. intros [= <-].
    destruct (IH _ _ _ Hb') as [Hlen Hread].
    pose proof (struct_pack_length _ _ Hrec) as Hreclen.
    change (len [s; len (frames t0); f]) with 3 in Hreclen.
    split.
    + unfold len in *. rewrite length_app. simpl. lia.
    + intros [| i] t rest Hi; simpl in Hi; rewrite <- app_assoc.
      * injection Hi as <-.
        change (names_before (t0 :: ts) 0) with 0.
        change (frames_before (t0 :: ts) 0) with 0.
        rewrite !Z.add_0_r. by apply read_texture_here.
      * replace (Z.of_nat (S i) * 12) with (len rec + Z.of_nat i * 12) by lia.
        rewrite read_texture_skip by lia.
        rewrite (Hread i t rest Hi), names_before_S, frames_before_S.
        unfold BinaryTextureAtlasMap.frm_fmt_len. do 2 f_equal; lia.
Qed.

(** *** String section *)

Lemma utf8_encode_cons (c : N) (s : list N) :
  utf8_encode (c :: s)
  = match utf8_encode_char c, utf8_encode s with
    | Some b, Some e => Some (b ++ e)
    | _, _ => None
    end.
Proof.
  unfold utf8_encode. simpl.
  destruct (utf8_encode_char c); [| done]. simpl.
  by destruct (mapM utf8_encode_char s).
Qed.

Lemma utf8_encode_char_ascii (c : N) :
  (c < 128)%N -> utf8_encode_char c = Some [byte_of_N c].
Proof.
  intros Hc. unfold utf8_encode_char.
  by replace (c <? 128)%N with true by lia.
Qed.

Lemma utf8_encode_ascii (s : list N) :
  ascii_name s ->
  exists enc, utf8_encode s = Some enc
              /\ length enc = length s
              /\ Forall (fun b => Byte.eqb b x00 = false) enc.
Proof.
  induction 1 as [| c s Hc _ (enc & E & Hlen & Hnz)].
  - by exists [].
  - rewrite utf8_encode_cons, utf8_encode_char_ascii, E by lia.
    exists (byte_of_N c :: enc). split; [done |].
    split; [simpl; lia |]. constructor; [| done].
    destruct (Byte.eqb (byte_of_N c) x00) eqn:Eq; [| done].
    apply Byte.byte_dec_bl in Eq.
    pose proof (byte_of_N_to_N c ltac:(lia)) as Hto.
    rewrite Eq in Hto. simpl in Hto. lia.
Qed.

Lemma until_null_terminated (enc rest : list byte) :
  Forall (fun b => Byte.eqb b x00 = false) enc ->
  BinaryTextureAtlasMap.until_null (enc ++ x00 :: rest) = Some enc.
Proof.
  induction 1 as [| b enc Hb _ IH]; simpl; [done |].
  by rewrite Hb, IH.
Qed.

Lemma string_section_read (ts : list Texture) :
  forall b : list byte,
    Forall (fun t => ascii_name (name t)) ts ->
    BinaryTextureAtlasMap.string_section ts = Some b ->
    len b = sum (map (fun t => len (name t) + 1) ts)
    /\ forall (i : nat) (t : Texture) (rest : list byte),
         ts !! i = Some t ->
         exists enc,
           utf8_encode (name t) = Some enc
           /\ BinaryTextureAtlasMap.read_cstring (b ++ rest)
                (names_before ts i) = Some enc.
Proof.
  induction ts as [| t0 ts IH]; intros b Hascii; simpl.
  - intros [= <-]. split; [done |]. intros i t rest Hi. done.
  - inversion Hascii as [| ? ? Ht0 Hts]; subst.
    destruct (utf8_encode_ascii _ Ht0) as (enc0 & E0 & Hlen0 & Hnz0).
    rewrite E0. simpl.
    destruct (BinaryTextureAtlasMap.string_section ts) as [b' |] eqn:Hb';
      [| done].
    simpl. intros [= <-].
    destruct (IH _ Hts eq_refl) as [Hlen Hread].
    split.
    + unfold len in *. rewrite length_app, Hlen0. simpl. lia.
    + intros [| i] t rest Hi; simpl in Hi.
      * injection Hi as <-. exists enc0. split; [done |].
        change (names_before (t0 :: ts) 0) with 0.
        unfold BinaryTextureAtlasMap.read_cstring. simpl.
        rewrite <- app_assoc. simpl. by apply until_null_terminated.
      * destruct (Hread i t rest Hi) as (enc & E & Hr).
        exists enc. split; [done |].
        rewrite names_before_S.
        change (enc0 ++ x00 :: b') with (enc0 ++ [x00] ++ b').
        rewrite !app_assoc, <- (app_assoc _ b' rest).
        replace (len (name t0) + 1) with (len (enc0 ++ [x00]))
          by (unfold len; rewrite length_app, Hlen0; simpl; lia).
        rewrite read_cstring_skip by apply names_before_nonneg. done.
Qed.

(** *** Frame section *)

Lemma frames_bytes_read (σ : Store) (fs : list ref) :
  forall b : list byte,
    BinaryTextureAtlasMap.frames_bytes σ fs = Some b ->
    len b = len fs * 16
    /\ forall (j : nat) (f : ref) (rest : list byte),
         fs !! j = Some f ->
         BinaryTextureAtlasMap.read_frame (b ++ rest) (Z.of_nat j * 16)
         = Some (σ f).
Proof.
  induction fs as [| f0 fs IH]; intros b; simpl.
  - intros [= <-]. split; [done |]. intros j f rest Hj. done.
  - destruct (struct_pack _) as [rec |] eqn:Hrec; [| done]. simpl.
    destruct (BinaryTextureAtlasMap.frames_bytes σ fs) as [b' |] eqn:Hb';
      [| done].
    simpl. intros [= <-].
    destruct (IH _ eq_refl) as [Hlen Hread].
    pose proof (struct_pack_length _ _ Hrec) as Hreclen.
    change (len [x (σ f0); y (σ f0); width (σ f0); height (σ f0)]) with 4
      in Hreclen.
    split.
    + unfold len in *. rewrite length_app. simpl. lia.
    + intros [| j] f rest Hj; simpl in Hj; rewrite <- app_assoc.
      * injection Hj as <-.
        rewrite (read_frame_here _ _ _ _ _ _ Hrec). by destruct (σ f0).
      * replace (Z.of_nat (S j) * 16) with (len rec + Z.of_nat j * 16) by lia.
        rewrite read_frame_skip by lia. by apply Hread.
Qed.

Lemma frame_section_read (σ : Store) (ts : list Texture) :
  forall b : list byte,
    BinaryTextureAtlasMap.frame_section σ ts = Some b ->
    forall (i j : nat) (t : Texture) (f : ref) (rest : list byte),
      ts !! i = Some t ->
      frames t !! j = Some f ->
      BinaryTextureAtlasMap.read_frame (b ++ rest)
        (frames_before ts i * 16 + Z.of_nat j * 16)
      = Some (σ f).
Proof.
  induction ts as [| t0 ts IH]; intros b; simpl.
  - intros [= <-] i j t f rest Hi. done.
  - destruct (BinaryTextureAtlasMap.frames_bytes σ (frames t0)) as [b0 |]
      eqn:Hb0; [| done].
    simpl.
    destruct (BinaryTextureAtlasMap.frame_section σ ts) as [b' |] eqn:Hb';
      [| done].
    simpl. intros [= <-] i j t f rest Hi Hj.
    destruct (frames_bytes_read _ _ _ Hb0) as [Hlen0 Hread0].
    rewrite <- app_assoc.
    destruct i as [| i]; simpl in Hi.
    + injection Hi as <-.
      change (frames_before (t0 :: ts) 0) with 0. simpl.
      by apply Hread0.
    + rewrite frames_before_S.
      replace ((len (frames t0) + frames_before ts i) * 16 + Z.of_nat j * 16)
        with (len b0 + (frames_before ts i * 16 + Z.of_nat j * 16)) by lia.
      rewrite read_frame_skip
        by (pose proof (frames_before_nonneg ts i); lia).
      by eapply IH.
Qed.

(** *** Header and the whole file *)

Lemma header_read (v0 v1 v2 v3 v4 v5 v6 v7 v8 : Z) (hdr rest : list byte) :
  struct_pack [v0; v1; v2; v3; v4; v5; v6; v7; v8] = Some hdr ->
  BinaryTextureAtlasMap.read_header
    (BinaryTextureAtlasMap.magic ++ hdr ++ rest)
  = Some (BinaryTextureAtlasMap.mkHeader v0 v1 v2 v3 v4 v5 v6 v7 v8).
Proof.
  intros Hp.
  assert (forall (i : nat) (v : Z),
             [v0; v1; v2; v3; v4; v5; v6; v7; v8] !! i = Some v ->
             BinaryTextureAtlasMap.read_I
               (BinaryTextureAtlasMap.magic ++ hdr ++ rest)
               (len BinaryTextureAtlasMap.magic + 4 * Z.of_nat i) = Some v)
    as Hfield.
  { intros i v Hi. rewrite read_I_skip by lia.
    by apply (struct_pack_read _ _ _ _ _ Hp). }
  unfold BinaryTextureAtlasMap.read_header.
  rewrite (Hfield 0%nat v0 eq_refl : BinaryTextureAtlasMap.read_I _ 4 = _).
  rewrite (Hfield 1%nat v1 eq_refl : BinaryTextureAtlasMap.read_I _ 8 = _).
  rewrite (Hfield 2%nat v2 eq_refl : BinaryTextureAtlasMap.read_I _ 12 = _).
  rewrite (Hfield 3%nat v3 eq_refl : BinaryTextureAtlasMap.read_I _ 16 = _).
  rewrite (Hfield 4%nat v4 eq_refl : BinaryTextureAtlasMap.read_I _ 20 = _).
  rewrite (Hfield 5%nat v5 eq_refl : BinaryTextureAtlasMap.read_I _ 24 = _).
  rewrite (Hfield 6%nat v6 eq_refl : BinaryTextureAtlasMap.read_I _ 28 = _).
  rewrite (Hfield 7%nat v7 eq_refl : BinaryTextureAtlasMap.read_I _ 32 = _).
  rewrite (Hfield 8%nat v8 eq_refl : BinaryTextureAtlasMap.read_I _ 36 = _).
  done.
Qed.

(** The offset contract of the binary codec holds whenever every texture
    name is made of ASCII characters other than NUL: then [len(name)] is the
    number of bytes of the encoded name, which is what the offsets assume. *)
Theorem binary_offset_contract_ascii (σ : Store) (atlas : TextureAtlas)
    (bs : list byte) :
  Forall (fun t => ascii_name (name t)) (textures atlas) ->
  BinaryTextureAtlasMap.write σ atlas = Some bs ->
  BinaryTextureAtlasMap.offset_contract σ atlas bs.
Proof.
  intros Hascii. unfold BinaryTextureAtlasMap.write.
  set (ts := textures atlas) in *.
  remember BinaryTextureAtlasMap.magic as mg eqn:Hmg.
  assert (length mg = 4%nat) as Lmg by (by subst mg).
  destruct (struct_pack _) as [hdr |] eqn:Hhdr; [| done]. simpl.
  destruct (BinaryTextureAtlasMap.texture_section ts 0 0) as [tex |] eqn:Htex;
    [| done].
  simpl.
  destruct (BinaryTextureAtlasMap.string_section ts) as [str |] eqn:Hstr;
    [| done].
  simpl.
  destruct (BinaryTextureAtlasMap.frame_section σ ts) as [frm |] eqn:Hfrm;
    [| done].
  simpl. intros [= <-].
  pose proof (struct_pack_length _ _ Hhdr) as Lhdr.
  destruct (texture_section_read _ _ _ _ Htex) as [Ltex Rtex].
  destruct (string_section_read _ _ Hascii Hstr) as [Lstr Rstr].
  pose proof (frame_section_read _ _ _ Hfrm) as Rfrm.
  eexists. split; [subst mg; by apply header_read |].
  intros i t Hi. unfold BinaryTextureAtlasMap.texture_located. simpl.
  unfold BinaryTextureAtlasMap.hdr_fmt_len,
    BinaryTextureAtlasMap.tex_fmt_len, BinaryTextureAtlasMap.frm_fmt_len.
  eexists. split; [| split; [| split]].
  - rewrite (app_assoc mg).
    replace (36 + 4 + Z.of_nat i * 12)
      with (len (mg ++ hdr) + Z.of_nat i * 12)
      by (unfold len in *; rewrite length_app; simpl in *; lia).
    rewrite read_texture_skip by lia. by apply Rtex.
  - done.
  - destruct (Rstr i t frm Hi) as (enc & Henc & Hread).
    exists enc. split; [done |]. simpl.
    rewrite (app_assoc mg), (app_assoc _ tex).
    replace (36 + 4 + len ts * 12 + (0 + names_before ts i))
      with (len ((mg ++ hdr) ++ tex)
            + names_before ts i)
      by (unfold len in *; rewrite !length_app; simpl in *; lia).
    rewrite read_cstring_skip by apply names_before_nonneg. done.
  - intros j f Hj. simpl.
    rewrite (app_assoc mg), (app_assoc _ tex),
      (app_assoc _ str).
    replace (36 + 4 + len ts * 12
             + sum (map (fun t0 => len (name t0) + 1) ts)
             + (0 + frames_before ts i * 16) + Z.of_nat j * 16)
      with (len (((mg ++ hdr) ++ tex) ++ str)
            + (frames_before ts i * 16 + Z.of_nat j * 16))
      by (unfold len in *; rewrite !length_app; simpl in *; lia).
    rewrite read_frame_skip
      by (pose proof (frames_before_nonneg ts i); lia).
    rewrite <- (app_nil_r frm). by eapply Rfrm.
Qed.

Lemma binary_offset_contract_ascii_witness :
  BinaryTextureAtlasMap.write example_store example_atlas = Some example_bytes
  /\ BinaryTextureAtlasMap.offset_contract example_store example_atlas
       example_bytes.
Proof.
  assert (BinaryTextureAtlasMap.write example_store example_atlas
          = Some example_bytes) as E by (vm_compute; reflexivity).
  split; [exact E |].
  apply (binary_offset_contract_ascii example_store example_atlas
           example_bytes); [| exact E].
  repeat constructor.
Defined.

(** * Further properties of the packer *)

Lemma pack_occupied_bool r q s1 s2 p (σ : Store) :
  (pack (Occupied r q s1 s2) p σ).1.1
  = (pack s1 p σ).1.1 || (pack s2 p σ).1.1.
Proof.
  simpl. destruct (_ >? _).
  - destruct (pack s1 p σ) as [[b1 σ1] s1'] eqn:E1. destruct b1; [done |].
    apply pack_false in E1 as [-> ->].
    by destruct (pack s2 p σ) as [[b2 σ2] s2'].
  - destruct (pack s2 p σ) as [[b2 σ2] s2'] eqn:E2. destruct b2.
    + simpl. by rewrite orb_true_r.
    + apply pack_false in E2 as [-> ->].
      destruct (pack s1 p σ) as [[b1 σ1] s1']. simpl. by rewrite orb_false_r.
Qed.

(** [pack] searches the whole tree: it succeeds exactly when some free region
    of the tree is at least as wide and as tall as the packable. *)
Theorem pack_succeeds_iff_some_free_region_fits (t : PackRegion) (p : ref)
    (σ : Store) :
  (pack t p σ).1.1 = true
  <-> exists g, g ∈ get_free_regions t /\ fits (σ p) (rect_of g).
Proof.
  induction t as [r | r q s1 IH1 s2 IH2].
  - simpl. unfold fits. split.
    + destruct (_ || _) eqn:E; [done |]. intros _.
      exists (Free r). split; [apply list_elem_of_here | simpl; lia].
    + intros (g & Hg & Hw & Hh). apply list_elem_of_singleton in Hg as ->.
      simpl in *. destruct (_ || _) eqn:E; [lia | done].
  - rewrite pack_occupied_bool, orb_true_iff, IH1, IH2. simpl. split.
    + intros [(g & Hg & Hf) | (g & Hg & Hf)]; exists g;
        (split; [apply elem_of_app; auto | done]).
    + intros (g & Hg & Hf). apply elem_of_app in Hg as [Hg | Hg]; eauto.
Qed.

Lemma pack_splits_free_region (t : PackRegion) (p : ref) :
  forall (σ σ' : Store) t',
    pack t p σ = (true, σ', t') ->
    exists l1 l2 r,
      get_free_regions t = l1 ++ Free r :: l2
      /\ fits (σ p) r
      /\ σ' = <[p := set_pos (σ p) (x r) (y r)]> σ
      /\ get_free_regions t'
         = l1 ++ Free (mkRect (x r) (y r + height (σ p))
                              (width (σ p)) (height r - height (σ p)))
              :: Free (mkRect (x r + width (σ p)) (y r)
                              (width r - width (σ p)) (height r))
              :: l2
      /\ occupant_refs t' ≡ₚ p :: occupant_refs t.
Proof.
  induction t as [r | r q s1 IH1 s2 IH2]; intros σ σ' t' H.
  - simpl in H. destruct (_ || _) eqn:E; [done |]. injection H as <- <-.
    exists [], [], r. rewrite fn_lookup_insert. simpl.
    split_and!; try done; unfold fits; lia.
  - apply pack_occupied_true in H as [(s1' & E & ->) | (s2' & E & ->)].
    + destruct (IH1 _ _ _ E) as (l1 & l2 & g & Hg & Hf & Hσ & Hg' & Ho).
      exists l1, (l2 ++ get_free_regions s2), g. simpl.
      split_and!; try done.
      * by rewrite Hg, <- app_assoc.
      * by rewrite Hg', <- app_assoc.
      * rewrite Ho. apply Permutation_swap.
    + destruct (IH2 _ _ _ E) as (l1 & l2 & g & Hg & Hf & Hσ & Hg' & Ho).
      exists (get_free_regions s1 ++ l1), l2, g. simpl.
      split_and!; try done.
      * by rewrite Hg, <- app_assoc.
      * by rewrite Hg', <- app_assoc.
      * rewrite Ho, <- Permutation_middle. apply Permutation_swap.
Qed.




Lemma pack_seq_occupants (ps : list ref) :
  forall t (σ σ' : Store) t',
    pack_seq t σ ps = Some (σ', t') ->
    occupant_refs t' ≡ₚ ps ++ occupant_refs t.
Proof.
  induction ps as [| p ps IH]; intros t σ σ' t'; simpl.
  - by intros [= <- <-].
  - destruct (pack t p σ) as [[b σ1] t1] eqn:E. destruct b; [| done].
    intros H. rewrite (IH _ _ _ _ H).
    destruct (pack_splits_free_region _ _ _ _ _ E) as (_ & _ & _ & _ & _ & _ & _ & ->).
    by rewrite Permutation_middle.
Qed.

Lemma inside_box_trans (a b c : Rect) :
  inside_box a b -> inside_box b c -> inside_box a c.
Proof. unfold inside_box. lia. Qed.

Lemma regions_inside_box (σ : Store) (t : PackRegion) :
  well_split σ t -> placed σ t ->
  Forall (fun q => inside_box (σ q) (rect_of t)) (occupant_refs t)
  /\ Forall (fun g => inside_box (rect_of g) (rect_of t))
       (get_free_regions t).
Proof.
  induction t as [r | r q s1 IH1 s2 IH2]; simpl.
  - intros _ _. split; [constructor |].
    constructor; [unfold inside_box; simpl; lia | constructor].
  - intros (Hqw & Hqh & R1 & R2 & W1 & W2) (Hx & Hy & P1 & P2).
    destruct (IH1 W1 P1) as [O1 F1]. destruct (IH2 W2 P2) as [O2 F2].
    assert (inside_box (rect_of s1) r) as B1
      by (rewrite R1; unfold inside_box; simpl; lia).
    assert (inside_box (rect_of s2) r) as B2
      by (rewrite R2; unfold inside_box; simpl; lia).
    split.
    + constructor; [unfold inside_box; lia |].
      apply Forall_app. split.
      * eapply Forall_impl; [exact O1 |]. intros a Ha.
        by apply (inside_box_trans _ (rect_of s1)).
      * eapply Forall_impl; [exact O2 |]. intros a Ha.
        by apply (inside_box_trans _ (rect_of s2)).
    + apply Forall_app. split.
      * eapply Forall_impl; [exact F1 |]. intros a Ha.
        by apply (inside_box_trans _ (rect_of s1)).
      * eapply Forall_impl; [exact F2 |]. intros a Ha.
        by apply (inside_box_trans _ (rect_of s2)).
Qed.

Lemma pairwise_disjoint_app_l (l1 l2 : list Rect) :
  pairwise_disjoint (l1 ++ l2) -> pairwise_disjoint l1.
Proof.
  unfold pairwise_disjoint. induction l1 as [| a l1 IH]; simpl; intros H.
  - constructor.
  - inversion H as [| ? ? Ha Hl]; subst.
    apply Forall_app in Ha as [Ha _]. constructor; auto.
Qed.

(** The invariants a sequence of packs of distinct objects of non-negative
    size establishes. *)
Lemma pack_seq_invariants (root : Rect) (σ0 σ : Store) (ps : list ref)
    (t : PackRegion) :
  NoDup ps ->
  Forall (fun q => non_negative (σ0 q)) ps ->
  pack_seq (Free root) σ0 ps = Some (σ, t) ->
  rect_of t = root /\ well_split σ t /\ placed σ t
  /\ occupant_refs t ≡ₚ ps.
Proof.
  intros Hnd Hn H. split_and!.
  - by rewrite (pack_seq_rect_of _ _ _ _ _ H).
  - eapply pack_seq_well_split; [| exact Hn | exact H]. done.
  - eapply pack_seq_placed; [| exact Hnd | | exact H]; [done |].
    intros p _. apply not_elem_of_nil.
  - rewrite (pack_seq_occupants _ _ _ _ _ H). simpl. by rewrite app_nil_r.
Qed.

(** * [pack_texture] and the loop over the textures *)

Lemma pack_seq_compose (l1 l2 : list ref) :
  forall t (σ : Store) σ1 t1 r,
    pack_seq t σ l1 = Some (σ1, t1) ->
    pack_seq t1 σ1 l2 = r ->
    pack_seq t σ (l1 ++ l2) = r.
Proof.
  induction l1 as [| p l1 IH]; intros t σ σ1 t1 r; simpl.
  - by intros [= <- <-].
  - destruct (pack t p σ) as [[b σ'] t'] eqn:E. destruct b; [| done].
    apply IH.
Qed.

Lemma pack_frames_true (fs : list ref) :
  forall reg (σ σ' : Store) reg',
    pack_frames reg fs σ = (true, σ', reg') <->
    pack_seq reg σ fs = Some (σ', reg').
Proof.
  induction fs as [| f fs IH]; intros reg σ σ' reg'; simpl.
  - split; intros [= <- <-]; done.
  - destruct (pack reg f σ) as [[b σ1] reg1] eqn:E.
    destruct b; [apply IH | done].
Qed.

Lemma pack_frames_false (fs : list ref) :
  forall reg (σ σ' : Store) reg',
    pack_frames reg fs σ = (false, σ', reg') ->
    exists pre f post,
      fs = pre ++ f :: post
      /\ pack_seq reg σ pre = Some (σ', reg')
      /\ pack reg' f σ' = (false, σ', reg').
Proof.
  induction fs as [| f fs IH]; intros reg σ σ' reg'; simpl; [done |].
  destruct (pack reg f σ) as [[b σ1] reg1] eqn:E. destruct b.
  - intros H. destruct (IH _ _ _ _ H) as (pre & f' & post & -> & Hs & Hf).
    exists (f :: pre), f', post. simpl. by rewrite E.
  - intros [= <- <-]. apply pack_false in E as Heq. destruct Heq as [-> ->].
    by exists [], f, fs.
Qed.

(** [pack_texture] lists the texture in every case.  It returns true exactly
    when the frames were all packed, one after the other; when it returns
    false the frames before the first one that did not fit stay packed in the
    atlas (nothing is rolled back) and the remaining ones were not tried. *)
Theorem pack_texture_keeps_partial_placement (self : TextureAtlas)
    (texture : Texture) (σ : Store) :
  textures (pack_texture self texture σ).2 = textures self ++ [texture]
  /\ ((pack_texture self texture σ).1.1 = true <->
        pack_seq (region self) σ (frames texture)
        = Some ((pack_texture self texture σ).1.2,
                region (pack_texture self texture σ).2))
  /\ ((pack_texture self texture σ).1.1 = false ->
        exists pre f post,
          frames texture = pre ++ f :: post
          /\ pack_seq (region self) σ pre
             = Some ((pack_texture self texture σ).1.2,
                     region (pack_texture self texture σ).2)
          /\ (pack (region (pack_texture self texture σ).2) f
                (pack_texture self texture σ).1.2).1.1 = false).
Proof.
  unfold pack_texture.
  destruct (pack_frames (region self) (frames texture) σ)
    as [[ok σ'] reg'] eqn:E.
  simpl. split; [done |]. split.
  - destruct ok.
    + split; [intros _; by apply pack_frames_true | done].
    + split; [done |]. intros H. apply pack_frames_true in H. congruence.
  - intros ->.
    destruct (pack_frames_false _ _ _ _ _ E) as (pre & f & post & ? & ? & Hf).
    exists pre, f, post. by rewrite Hf.
Qed.

Lemma for_textures_all_packed (ts : list Texture) :
  forall atlas (σ σ' : Store) w h atlas',
    for_textures atlas ts σ w h = AllPacked σ' atlas' ->
    pack_seq (region atlas) σ (concat (map frames ts))
    = Some (σ', region atlas')
    /\ textures atlas' = textures atlas ++ ts.
Proof.
  induction ts as [| t ts IH]; intros atlas σ σ' w h atlas'; simpl.
  - intros [= <- <-]. by rewrite app_nil_r.
  - unfold pack_texture.
    destruct (pack_frames (region atlas) (frames t) σ) as [[ok σ1] reg1] eqn:E.
    destruct ok.
    + intros H. destruct (IH _ _ _ _ _ _ H) as [Hs Ht]. simpl in *.
      apply pack_frames_true in E. split.
      * by apply (pack_seq_compose _ _ _ _ _ _ _ E).
      * by rewrite Ht, <- app_assoc.
    + by destruct (grow _ _ _ _ _) as [[w' h'] |].
Qed.

Lemma pack_frames_dims (fs : list ref) :
  forall reg (σ σ' : Store) b reg',
    pack_frames reg fs σ = (b, σ', reg') ->
    forall q, width (σ' q) = width (σ q) /\ height (σ' q) = height (σ q).
Proof.
  induction fs as [| f fs IH]; intros reg σ σ' b reg'; simpl.
  - by intros [= <- <- <-].
  - destruct (pack reg f σ) as [[ok σ1] reg1] eqn:E. destruct ok.
    + intros H q. destruct (IH _ _ _ _ _ H q) as [-> ->]. eapply pack_dims, E.
    + intros [= <- <- <-]. eapply pack_dims, E.
Qed.

Lemma for_textures_dims (ts : list Texture) :
  forall atlas (σ : Store) w h,
    match for_textures atlas ts σ w h with
    | AllPacked σ' _ | Grown σ' _ _ =>
        forall q, width (σ' q) = width (σ q) /\ height (σ' q) = height (σ q)
    | PassRaised => True
    end.
Proof.
  induction ts as [| t ts IH]; intros atlas σ w h; simpl; [done |].
  unfold pack_texture.
  destruct (pack_frames (region atlas) (frames t) σ) as [[ok σ1] reg1] eqn:E.
  pose proof (pack_frames_dims _ _ _ _ _ _ E) as Hd.
  destruct ok.
  - specialize (IH (mkAtlas reg1 (textures atlas ++ [t])) σ1 w h).
    destruct (for_textures _ ts σ1 w h); try done;
      intros q; destruct (IH q) as [-> ->]; apply Hd.
  - by destruct (grow _ _ _ _ _) as [[w' h'] |].
Qed.

(** * What [main] ends with *)

Lemma growth_loop_done (fuel : nat) :
  forall ts (σ σ' : Store) w h atlas,
    growth_loop fuel ts σ w h = Done (σ', atlas) ->
    exists (σk : Store) w' h',
      for_textures (TextureAtlas_init w' h') ts σk w' h' = AllPacked σ' atlas
      /\ forall q, width (σk q) = width (σ q)
                   /\ height (σk q) = height (σ q).
Proof.
  induction fuel as [| fuel IH]; intros ts σ σ' w h atlas; simpl; [done |].
  pose proof (for_textures_dims ts (TextureAtlas_init w h) σ w h) as Hd.
  destruct (for_textures _ ts σ w h) as [σ1 a1 | σ1 w1 h1 |] eqn:E; [| | done].
  - intros [= <- <-]. by exists σ, w, h.
  - intros H. destruct (IH _ _ _ _ _ _ H) as (σk & w' & h' & Hk & Hdk).
    exists σk, w', h'. split; [done |].
    intros q. destruct (Hdk q) as [-> ->]. apply Hd.
Qed.

Lemma alloc_frames_spec (dims : list (Z * Z)) :
  forall (next : ref) (σ : Store),
    let '(next', σ', fs) := alloc_frames next dims σ in
    fs = seq next (length dims)
    /\ next' = (next + length dims)%nat
    /\ (forall q, (q < next)%nat -> σ' q = σ q)
    /\ map (fun f => (width (σ' f), height (σ' f))) fs = dims
    /\ Forall (fun f => x (σ' f) = 0 /\ y (σ' f) = 0) fs.
Proof.
  induction dims as [| [w h] dims IH]; intros next σ; simpl.
  - split_and!; try done; lia.
  - specialize (IH (S next) (<[next := mkRect 0 0 w h]> σ)).
    destruct (alloc_frames (S next) dims _) as [[next' σ'] fs].
    destruct IH as (-> & -> & Hold & Hdims & Hpos).
    assert (σ' next = mkRect 0 0 w h) as Hnext
      by (rewrite Hold by lia; apply fn_lookup_insert).
    split_and!; try done.
    + lia.
    + intros q Hq. rewrite Hold by lia. apply fn_lookup_insert_ne. lia.
    + simpl. by rewrite Hnext, Hdims.
    + constructor; [by rewrite Hnext | done].
Qed.

Lemma load_textures_spec (specs : list texture_spec) :
  forall (next : ref) (σ : Store),
    let '(σ', ts) := load_textures next specs σ in
    map (texture_shape σ') ts = specs
    /\ concat (map frames ts) = seq next (length (concat (map snd specs)))
    /\ (forall q, (q < next)%nat -> σ' q = σ q).
Proof.
  induction specs as [| [nm dims] specs IH]; intros next σ; simpl; [done |].
  pose proof (alloc_frames_spec dims next σ) as Ha.
  destruct (alloc_frames next dims σ) as [[next' σ1] fs].
  destruct Ha as (-> & -> & Hold1 & Hdims & _).
  specialize (IH (next + length dims)%nat σ1).
  destruct (load_textures _ specs σ1) as [σ2 ts].
  destruct IH as (Hshape & Hframes & Hold2).
  split_and!.
  - simpl. f_equal; [| done]. unfold texture_shape. simpl. f_equal.
    etrans; [| exact Hdims]. apply map_ext_in. intros f Hf.
    apply in_seq in Hf. by rewrite Hold2 by lia.
  - simpl. rewrite Hframes, length_app. by rewrite seq_app.
  - intros q Hq. rewrite Hold2 by lia. by apply Hold1.
Qed.

Lemma concat_frames_perm (l1 l2 : list Texture) :
  l1 ≡ₚ l2 -> concat (map frames l1) ≡ₚ concat (map frames l2).
Proof.
  induction 1 as [| t l1 l2 _ IH | t1 t2 l | l1 l2 l3 _ IH1 _ IH2]; simpl.
  - done.
  - by rewrite IH.
  - rewrite !app_assoc. apply Permutation_app_tail, Permutation_app_comm.
  - by rewrite IH1.
Qed.

Lemma texture_shape_ext (σ σ' : Store) (t : Texture) :
  (forall q, width (σ' q) = width (σ q) /\ height (σ' q) = height (σ q)) ->
  texture_shape σ' t = texture_shape σ t.
Proof.
  intros Hd. unfold texture_shape. f_equal. apply map_ext. intros f.
  by destruct (Hd f) as [-> ->].
Qed.

(** When [main] leaves its loop, the atlas holds every texture of the input
    exactly once (in sorted order), every frame has the size reported for its
    image, lies inside the canvas, and overlaps no other frame; frame sizes
    are assumed non-negative. *)
Theorem main_ends_with_a_valid_packing (specs : list texture_spec)
    (fuel : nat) (σ : Store) (atlas : TextureAtlas) :
  Forall (fun spec => Forall (fun d => 0 <= d.1 /\ 0 <= d.2) spec.2) specs ->
  main_pack fuel (load_textures 0%nat specs empty_store).2
                 (load_textures 0%nat specs empty_store).1
  = Done (σ, atlas) ->
  map (texture_shape σ) (textures atlas) ≡ₚ specs
  /\ NoDup (concat (map frames (textures atlas)))
  /\ Forall (fun f => inside_box (σ f) (canvas atlas))
       (concat (map frames (textures atlas)))
  /\ pairwise_disjoint (map σ (concat (map frames (textures atlas)))).
Proof.
  intros Hpos.
  pose proof (load_textures_spec specs 0%nat empty_store) as Hload.
  destruct (load_textures 0%nat specs empty_store) as [σ0 ts].
  destruct Hload as (Hshape & Hframes & _). simpl.
  unfold main_pack.
  destruct (sorted_reverse _ ts) as [sorted |] eqn:Hs; [| done].
  apply sorted_reverse_stable in Hs as (Hperm & _ & _).
  destruct sorted as [| t0 rest] eqn:Hsorted; [done |]. rewrite <- Hsorted in *.
  destruct (head (frames t0)) as [f0 |]; [| done].
  intros H. apply growth_loop_done in H as (σk & w & h & Hpass & Hdk).
  apply for_textures_all_packed in Hpass as [Hseq Htex]. simpl in Hseq, Htex.
  clear Hsorted t0 rest f0.
  pose proof (pack_seq_dims _ _ _ _ _ Hseq) as Hd.
  assert (forall q, width (σ q) = width (σ0 q) /\ height (σ q) = height (σ0 q))
    as Hd0.
  { intros q. destruct (Hd q) as [-> ->]. apply Hdk. }
  assert (NoDup (concat (map frames sorted))) as Hnd.
  { rewrite (concat_frames_perm _ _ Hperm), Hframes. apply NoDup_seq. }
  assert (Forall (fun q => non_negative (σk q)) (concat (map frames sorted)))
    as Hnn.
  { rewrite (concat_frames_perm _ _ Hperm).
    clear -Hshape Hpos Hdk. subst specs.
    induction ts as [| t ts IH]; simpl; [constructor |].
    inversion Hpos as [| ? ? Ht Hts]; subst.
    apply Forall_app. split; [| by apply IH].
    simpl in Ht. rewrite Forall_fmap in Ht.
    eapply Forall_impl; [exact Ht |]. intros f [? ?]. simpl in *.
    unfold non_negative. by destruct (Hdk f) as [-> ->]. }
  destruct (pack_seq_invariants _ _ _ _ _ Hnd Hnn Hseq)
    as (Hr & Hw & Hp & Ho).
  rewrite Htex. split_and!.
  - assert (map (texture_shape σ) sorted = map (texture_shape σ0) sorted)
      as -> by (apply map_ext; intros t; by apply texture_shape_ext).
    by rewrite Hperm, Hshape.
  - done.
  - destruct (regions_inside_box _ _ Hw Hp) as [Hin _].
    rewrite Ho, Hr in Hin. unfold canvas, atlas_width, atlas_height.
    by rewrite Hr.
  - destruct (tiles_of_invariants _ _ Hw Hp) as (_ & Hdj & _).
    unfold pieces, occupants in Hdj. apply pairwise_disjoint_app_l in Hdj.
    eapply pairwise_disjoint_perm; [| exact Hdj].
    by apply fmap_Permutation.
Qed.

Lemma main_ends_with_a_valid_packing_witness :
  example_run = Done (example_final_store, example_final_atlas)
  /\ map (texture_shape example_final_store) (textures example_final_atlas)
     ≡ₚ example_specs
  /\ NoDup (concat (map frames (textures example_final_atlas)))
  /\ Forall (fun f => inside_box (example_final_store f)
                        (canvas example_final_atlas))
       (concat (map frames (textures example_final_atlas)))
  /\ pairwise_disjoint
       (map example_final_store
          (concat (map frames (textures example_final_atlas)))).
Proof.
  assert (example_run = Done (example_final_store, example_final_atlas)) as E
    by (vm_compute; reflexivity).
  split; [exact E |].
  apply (main_ends_with_a_valid_packing example_specs 3 example_final_store
           example_final_atlas); [| exact E].
  repeat constructor; simpl; lia.
Defined.

(** * The growth loop *)

Lemma get_free_regions_nonempty (t : PackRegion) : get_free_regions t <> [].
Proof.
  induction t as [r | r q s1 IH1 s2 IH2]; simpl; [done |].
  intros H. apply app_eq_nil in H as [H _]. by apply IH1.
Qed.

Lemma max_by_spec {A : Type} (key : A -> Z) (l : list A) :
  l <> [] ->
  exists b, max_by key l = Some b /\ b ∈ l
            /\ Forall (fun a => key a <= key b) l.
Proof.
  induction l as [| a l IH]; [done |]. intros _. simpl.
  destruct l as [| a' l'].
  - simpl. exists a. split_and!; [done | apply list_elem_of_here |].
    constructor; [lia | constructor].
  - destruct IH as (b & -> & Hb & Hmax); [done |].
    destruct (key b >? key a) eqn:E.
    + exists b. split_and!; [done | by apply list_elem_of_further |].
      constructor; [lia | done].
    + exists a. split_and!; [done | apply list_elem_of_here |].
      constructor; [lia |].
      eapply Forall_impl; [exact Hmax |]. simpl. intros; lia.
Qed.

Lemma sum_app (l1 l2 : list Z) : sum (l1 ++ l2) = sum l1 + sum l2.
Proof.
  unfold sum. induction l1 as [| a l1 IH]; simpl; [done |]. rewrite IH. lia.
Qed.

Lemma sum_perm (l1 l2 : list Z) : l1 ≡ₚ l2 -> sum l1 = sum l2.
Proof.
  unfold sum.
  induction 1 as [| a l1 l2 _ IH | a b l | l1 l2 l3 _ IH1 _ IH2]; simpl; lia.
Qed.

Lemma sum_nonneg (l : list Z) : Forall (fun a => 0 <= a) l -> 0 <= sum l.
Proof. unfold sum. induction 1; simpl; lia. Qed.

Lemma occupant_sizes_nonneg (σ : Store) (t : PackRegion) :
  well_split σ t ->
  Forall (fun q => 0 <= width (σ q) /\ 0 <= height (σ q)) (occupant_refs t).
Proof.
  induction t as [r | r q s1 IH1 s2 IH2]; simpl; [constructor |].
  intros (Hqw & Hqh & _ & _ & W1 & W2).
  constructor; [lia |]. apply Forall_app. auto.
Qed.

Lemma free_regions_bounds (σ : Store) (t : PackRegion) :
  well_split σ t -> non_negative (rect_of t) ->
  Forall (fun g => 0 <= width (rect_of g) <= width (rect_of t)
                   /\ 0 <= height (rect_of g) <= height (rect_of t))
    (get_free_regions t).
Proof.
  unfold non_negative.
  induction t as [r | r q s1 IH1 s2 IH2]; simpl.
  - intros _ Hr. constructor; [simpl; lia | constructor].
  - intros (Hqw & Hqh & R1 & R2 & W1 & W2) Hr.
    apply Forall_app. split.
    + eapply Forall_impl; [apply IH1; [done | rewrite R1; simpl; lia] |].
      rewrite R1. simpl. intros; lia.
    + eapply Forall_impl; [apply IH2; [done | rewrite R2; simpl; lia] |].
      rewrite R2. simpl. intros; lia.
Qed.

(** The last free region of a tree is as high as the root and at least as
    wide as what the occupants leave of the root's width. *)
Lemma rightmost_spec (σ : Store) (t : PackRegion) :
  well_split σ t ->
  Free (rightmost t) ∈ get_free_regions t
  /\ height (rightmost t) = height (rect_of t)
  /\ width (rect_of t) - sum (map (fun q => width (σ q)) (occupant_refs t))
     <= width (rightmost t).
Proof.
  induction t as [r | r q s1 IH1 s2 IH2]; simpl.
  - intros _. split_and!; [apply list_elem_of_here | done |].
    unfold sum. simpl. lia.
  - intros (Hqw & Hqh & R1 & R2 & W1 & W2).
    destruct (IH2 W2) as (Hin & Hh & Hw).
    rewrite R2 in Hh, Hw. simpl in Hh, Hw.
    split_and!; [apply elem_of_app; auto | done |].
    rewrite map_app, sum_app.
    pose proof (occupant_sizes_nonneg _ _ W1) as Hn.
    assert (0 <= sum (map (fun q => width (σ q)) (occupant_refs s1))) as Hs1.
    { apply sum_nonneg. rewrite Forall_fmap.
      eapply Forall_impl; [exact Hn |]. simpl. intros; lia. }
    change (sum (width (σ q) :: ?l)) with (width (σ q) + sum l).
    unfold sum in *. simpl. lia.
Qed.

Lemma pack_fits_succeeds (t : PackRegion) (p : ref) (σ : Store)
    (g : PackRegion) :
  g ∈ get_free_regions t -> fits (σ p) (rect_of g) ->
  (pack t p σ).1.1 = true.
Proof.
  induction t as [r | r q s1 IH1 s2 IH2]; simpl get_free_regions.
  - intros ->%list_elem_of_singleton [Hw Hh]. simpl in *.
    destruct (_ || _) eqn:E; [lia | done].
  - intros Hg Hf. rewrite pack_occupied_bool, orb_true_iff.
    apply elem_of_app in Hg as [Hg | Hg]; auto.
Qed.

Lemma for_textures_grown (ts : list Texture) :
  forall atlas (σ σ' : Store) w h w' h',
    for_textures atlas ts σ w h = Grown σ' w' h' ->
    exists pre t post (σ1 : Store) T1 atlasf,
      ts = pre ++ t :: post
      /\ pack_seq (region atlas) σ (concat (map frames pre)) = Some (σ1, T1)
      /\ pack_frames T1 (frames t) σ1 = (false, σ', region atlasf)
      /\ grow σ' atlasf t w h = Some (w', h').
Proof.
  induction ts as [| t ts IH]; intros atlas σ σ' w h w' h'; simpl; [done |].
  unfold pack_texture.
  destruct (pack_frames (region atlas) (frames t) σ) as [[ok σ1] reg1] eqn:E.
  destruct ok.
  - intros H.
    destruct (IH _ _ _ _ _ _ _ H)
      as (pre & t' & post & σ2 & T1 & atlasf & -> & Hs & Hf & Hg).
    exists (t :: pre), t', post, σ2, T1, atlasf. simpl in *.
    split_and!; try done.
    apply pack_frames_true in E. by apply (pack_seq_compose _ _ _ _ _ _ _ E).
  - destruct (grow _ _ _ _ _) as [[w1 h1] |] eqn:Hg; [| done].
    intros [= <- <- <-].
    by exists [], t, ts, σ, (region atlas),
              (mkAtlas reg1 (textures atlas ++ [t])).
Qed.

Lemma total_width_split (σ : Store) (pre post : list Texture) (t : Texture) :
  total_width σ (pre ++ t :: post)
  = total_width σ pre + sum (map (fun f => width (σ f)) (frames t))
    + total_width σ post.
Proof.
  unfold total_width. rewrite map_app, concat_app. simpl.
  rewrite !map_app, !sum_app. lia.
Qed.

Lemma total_height_split (σ : Store) (pre post : list Texture) (t : Texture) :
  total_height σ (pre ++ t :: post)
  = total_height σ pre + sum (map (fun f => height (σ f)) (frames t))
    + total_height σ post.
Proof.
  unfold total_height. rewrite map_app, concat_app. simpl.
  rewrite !map_app, !sum_app. lia.
Qed.

Lemma single_frames_nonneg (σ : Store) (ts : list Texture) :
  Forall (single_frame σ) ts ->
  Forall (fun q => non_negative (σ q)) (concat (map frames ts))
  /\ 0 <= total_width σ ts /\ 0 <= total_height σ ts.
Proof.
  unfold total_width, total_height.
  induction 1 as [| t ts (f & Hf & Hw & Hh) _ (IH1 & IH2 & IH3)]; simpl.
  - by split_and!.
  - rewrite Hf. simpl. unfold sum in *. simpl. split_and!; try lia.
    constructor; [unfold non_negative; lia | done].
Qed.

(** One failing pass over textures of one frame each: exactly one dimension
    grows, and the grown dimension stays below a bound that depends on the
    frames alone. *)
Lemma growth_step_bounds (ts : list Texture) (σ σ' : Store) (W H W' H' : Z) :
  Forall (single_frame σ) ts -> 0 <= W -> 0 <= H ->
  for_textures (TextureAtlas_init W H) ts σ W H = Grown σ' W' H' ->
  (W < W' /\ H' = H /\ W' <= 2 * total_width σ ts)
  \/ (W' = W /\ H < H' /\ H' <= W + 2 * total_height σ ts).
Proof.
  intros Hsingle HW HH Hpass.
  apply for_textures_grown in Hpass
    as (pre & t & post & σ1 & T1 & atlasf & -> & Hseq & Hfail & Hgrow).
  apply Forall_app in Hsingle as [Hpre Hrest].
  inversion Hrest as [| ? ? (f & Hf & Hfw & Hfh) Hpost]; subst.
  destruct (single_frames_nonneg _ _ Hpre) as (Hnn & Hpw & Hph).
  destruct (single_frames_nonneg _ _ Hpost) as (_ & Hqw & Hqh).
  rewrite total_width_split, total_height_split, Hf.
  change (sum (map (fun f0 => width (σ f0)) [f])) with (width (σ f) + 0).
  change (sum (map (fun f0 => height (σ f0)) [f])) with (height (σ f) + 0).
  (* the tree at the failure *)
  simpl in Hseq.
  pose proof (pack_seq_dims _ _ _ _ _ Hseq) as Hd.
  assert (well_split σ1 T1) as Hws
    by (eapply pack_seq_well_split; [| exact Hnn | exact Hseq]; done).
  pose proof (pack_seq_rect_of _ _ _ _ _ Hseq) as Hroot. simpl in Hroot.
  pose proof (pack_seq_occupants _ _ _ _ _ Hseq) as Hocc.
  simpl in Hocc. rewrite app_nil_r in Hocc.
  (* the frame fails on it and leaves it as it is *)
  rewrite Hf in Hfail. simpl in Hfail.
  destruct (pack T1 f σ1) as [[ok σ2] T2] eqn:E.
  destruct ok; [done |]. injection Hfail as <- HT.
  apply pack_false in E as HE. destruct HE as [-> ->].
  (* the free region chosen by max *)
  unfold grow in Hgrow. rewrite <- HT, Hf in Hgrow. simpl in Hgrow.
  destruct (max_by_spec (fun r => perimeter (rect_of r))
              (get_free_regions T1) (get_free_regions_nonempty T1))
    as (B & HB & HBin & HBmax).
  rewrite HB in Hgrow. simpl in Hgrow.
  destruct (rightmost_spec _ _ Hws) as (HLin & HLh & HLw).
  rewrite Hroot in HLh, HLw. simpl in HLh, HLw.
  assert (sum (map (fun q => width (σ1 q)) (occupant_refs T1))
          = total_width σ pre) as HS.
  { unfold total_width. rewrite (sum_perm _ _ (fmap_Permutation _ _ _ Hocc)).
    f_equal. apply map_ext. intros q. by destruct (Hd q) as [-> _]. }
  rewrite HS in HLw.
  pose proof (free_regions_bounds _ _ Hws) as Hb.
  rewrite Hroot in Hb. specialize (Hb ltac:(unfold non_negative; simpl; lia)).
  rewrite Forall_forall in Hb, HBmax.
  pose proof (Hb _ HBin) as HBb. pose proof (Hb _ HLin) as HLb.
  pose proof (HBmax _ HLin) as Hper.
  simpl in HBb, HLb, Hper. unfold perimeter in Hper.
  assert (~ fits (σ1 f) (rect_of B)) as Hnofit.
  { intros Hfit. pose proof (pack_fits_succeeds T1 f σ1 B HBin Hfit) as Ht.
    by rewrite E in Ht. }
  unfold fits in Hnofit.
  destruct (Hd f) as [Hdw Hdh]. rewrite Hdw, Hdh in *.
  destruct (width (rect_of B) <? width (σ f)) eqn:Ecmp;
    injection Hgrow as <- <-; [left | right]; split_and!; lia.
Qed.

Lemma for_textures_never_raises (ts : list Texture) :
  forall atlas (σ : Store) w h,
    Forall (fun t => frames t <> []) ts ->
    for_textures atlas ts σ w h <> PassRaised.
Proof.
  induction ts as [| t ts IH]; intros atlas σ w h Hne; simpl; [done |].
  inversion Hne as [| ? ? Ht Hts]; subst.
  destruct (pack_texture atlas t σ) as [[ok σ1] atlas1].
  destruct ok; [by apply IH |].
  unfold grow.
  destruct (max_by_spec (fun r => perimeter (rect_of r))
              (get_free_regions (region atlas1))
              (get_free_regions_nonempty _)) as (B & -> & _).
  simpl. destruct (frames t) as [| f0 fs]; [done |]. simpl.
  by destruct (_ <? _).
Qed.

Lemma single_frame_ext (σ σ' : Store) (ts : list Texture) :
  (forall q, width (σ' q) = width (σ q) /\ height (σ' q) = height (σ q)) ->
  Forall (single_frame σ) ts ->
  Forall (single_frame σ') ts
  /\ total_width σ' ts = total_width σ ts
  /\ total_height σ' ts = total_height σ ts.
Proof.
  intros Hd Hs. split_and!.
  - eapply Forall_impl; [exact Hs |]. intros t (f & Hf & Hp).
    exists f. split; [done |]. unfold positive in *.
    by destruct (Hd f) as [-> ->].
  - unfold total_width. f_equal. apply map_ext. intros q.
    by destruct (Hd q) as [-> _].
  - unfold total_height. f_equal. apply map_ext. intros q.
    by destruct (Hd q) as [_ ->].
Qed.

Lemma single_frame_has_frame (σ : Store) (ts : list Texture) :
  Forall (single_frame σ) ts -> Forall (fun t => frames t <> []) ts.
Proof.
  intros H. eapply Forall_impl; [exact H |].
  intros t (f & -> & _). done.
Qed.

(** The loop finishes within a number of passes bounded by the sizes of the
    frames, once the canvas is within the bounds every growth keeps. *)
Lemma growth_loop_finishes (ts : list Texture) (fuel : nat) :
  forall (σ : Store) (W H : Z),
    Forall (single_frame σ) ts ->
    0 <= W <= 2 * total_width σ ts ->
    0 <= H <= 2 * total_width σ ts + 2 * total_height σ ts ->
    (2 * total_width σ ts - W)
    + (2 * total_width σ ts + 2 * total_height σ ts - H) < Z.of_nat fuel ->
    exists r, growth_loop fuel ts σ W H = Done r.
Proof.
  induction fuel as [| fuel IH]; intros σ W H Hs HW HH Hm; [lia |].
  simpl.
  pose proof (for_textures_dims ts (TextureAtlas_init W H) σ W H) as Hd.
  pose proof (for_textures_never_raises ts (TextureAtlas_init W H) σ W H
                (single_frame_has_frame _ _ Hs)) as Hnr.
  destruct (for_textures _ ts σ W H) as [σ' a | σ' W' H' |] eqn:E;
    [by eexists | | done].
  destruct (single_frame_ext _ _ _ Hd Hs) as (Hs' & HSW & HSH).
  pose proof (growth_step_bounds _ _ _ _ _ _ _ Hs (proj1 HW) (proj1 HH) E)
    as Hstep.
  apply IH; [done | | |]; rewrite ?HSH, ?HSW; lia.
Qed.

Lemma total_width_perm (σ : Store) (l1 l2 : list Texture) :
  l1 ≡ₚ l2 -> total_width σ l1 = total_width σ l2.
Proof.
  intros H. unfold total_width.
  apply sum_perm, fmap_Permutation, concat_frames_perm, H.
Qed.

Lemma total_height_perm (σ : Store) (l1 l2 : list Texture) :
  l1 ≡ₚ l2 -> total_height σ l1 = total_height σ l2.
Proof.
  intros H. unfold total_height.
  apply sum_perm, fmap_Permutation, concat_frames_perm, H.
Qed.

Lemma sorted_reverse_total {A : Type} (key : A -> option Z) (l : list A) :
  Forall (fun a => is_Some (key a)) l ->
  exists l', sorted_reverse key l = Some l'.
Proof.
  intros H. unfold sorted_reverse.
  destruct (mapM key l) as [ks |] eqn:E; [by eexists |].
  assert (is_Some (mapM key l)) as [ks Hks] by (by apply mapM_is_Some).
  congruence.
Qed.

(** For textures of one frame each, all of positive size, the growth loop of
    [main] terminates: within [4 * (sum of widths) + 2 * (sum of heights) + 1]
    passes it ends with an atlas that lists every texture. *)
Theorem growth_terminates_for_single_frame_textures (ts : list Texture)
    (σ : Store) :
  ts <> [] ->
  Forall (single_frame σ) ts ->
  exists σ' atlas,
    main_pack
      (Z.to_nat (4 * total_width σ ts + 2 * total_height σ ts) + 1) ts σ
    = Done (σ', atlas)
    /\ textures atlas ≡ₚ ts.
Proof.
  intros Hne Hs. unfold main_pack.
  destruct (sorted_reverse_total (first_frame_perimeter σ) ts)
    as [sorted Hsorted].
  { eapply Forall_impl; [exact Hs |]. intros t (f & Hf & _).
    unfold first_frame_perimeter. rewrite Hf. by eexists. }
  rewrite Hsorted.
  apply sorted_reverse_stable in Hsorted as (Hperm & _ & _).
  rewrite <- (total_width_perm _ _ _ Hperm), <- (total_height_perm _ _ _ Hperm).
  assert (Forall (single_frame σ) sorted) as Hs' by (by rewrite Hperm).
  destruct sorted as [| t0 rest] eqn:Heq.
  { apply Permutation_nil_l in Hperm. by subst. }
  rewrite <- Heq in *.
  assert (single_frame σ t0) as (f0 & Hf0 & Hw0 & Hh0).
  { rewrite Forall_forall in Hs'. apply Hs'. rewrite Heq.
    apply list_elem_of_here. }
  rewrite Hf0. simpl.
  assert (width (σ f0) <= total_width σ sorted
          /\ height (σ f0) <= total_height σ sorted) as [HW HH].
  { rewrite Heq.
    rewrite (total_width_split σ [] rest t0
               : total_width σ (t0 :: rest) = _),
      (total_height_split σ [] rest t0
         : total_height σ (t0 :: rest) = _), Hf0.
    rewrite Heq in Hs'. inversion Hs' as [| ? ? _ Hrest]; subst.
    destruct (single_frames_nonneg _ _ Hrest) as (_ & ? & ?).
    unfold total_width, total_height, sum in *. simpl. lia. }
  destruct (growth_loop_finishes sorted
              (Z.to_nat (4 * total_width σ sorted
                         + 2 * total_height σ sorted) + 1)
              σ (width (σ f0)) (height (σ f0)) Hs')
    as [[σ' atlas] Hdone]; [lia.. |].
  exists σ', atlas. split; [done |].
  apply growth_loop_done in Hdone as (σk & w & h & Hpass & _).
  apply for_textures_all_packed in Hpass as [_ Htex].
  simpl in Htex. by rewrite Htex.
Qed.

Lemma growth_terminates_for_single_frame_textures_witness :
  exists σ' atlas,
    main_pack 79 example_textures example_loaded_store = Done (σ', atlas)
    /\ textures atlas ≡ₚ example_textures.
Proof.
  apply (growth_terminates_for_single_frame_textures example_textures
           example_loaded_store).
  - discriminate.
  - repeat (constructor; [eexists; split; [reflexivity | by split] |]).
    constructor.
Defined.

(** * The JSON map as a dict *)

Lemma dict_get_set {V : Type} (d : list (list N * V)) (k k' : list N) (v : V) :
  dict_get (JsonTextureAtlasMap.dict_set d k v) k'
  = if decide (k = k') then Some v else dict_get d k'.
Proof.
  induction d as [| [k0 v0] d IH]; simpl.
  - by destruct (decide (k = k')).
  - destruct (decide (k0 = k)) as [-> | Hne]; simpl.
    + by destruct (decide (k = k')).
    + rewrite IH.
      destruct (decide (k0 = k')) as [-> | ?]; [| done].
      by rewrite decide_False by congruence.
Qed.

Lemma dict_set_keys {V : Type} (d : list (list N * V)) (k : list N) (v : V) :
  map fst (JsonTextureAtlasMap.dict_set d k v)
  = if decide (k ∈ map fst d) then map fst d else map fst d ++ [k].
Proof.
  induction d as [| [k0 v0] d IH].
  - destruct (decide (k ∈ map fst [])) as [Hin | _]; [| done].
    by apply not_elem_of_nil in Hin.
  - cbn [JsonTextureAtlasMap.dict_set map fst].
    destruct (decide (k0 = k)) as [-> | Hne]; cbn [map fst].
    + rewrite decide_True; [done | apply list_elem_of_here].
    + rewrite IH. destruct (decide (k ∈ map fst d)) as [Hin | Hnin].
      * rewrite decide_True; [done | by apply list_elem_of_further].
      * rewrite decide_False; [done |].
        rewrite elem_of_cons. intros [-> | ?]; done.
Qed.

Lemma dict_set_fresh {V : Type} (d : list (list N * V)) (k : list N) (v : V) :
  k ∉ map fst d -> JsonTextureAtlasMap.dict_set d k v = d ++ [(k, v)].
Proof.
  induction d as [| [k0 v0] d IH]; simpl; [done |].
  rewrite not_elem_of_cons. intros [Hne Hnin].
  rewrite decide_False by congruence. by rewrite IH.
Qed.

Lemma map_value_fold (σ : Store) (atlas : TextureAtlas) (ts : list Texture) :
  forall d,
    let r := fold_left
               (fun d texture =>
                  JsonTextureAtlasMap.dict_set d (name texture)
                    (map (fun frame =>
                            JsonTextureAtlasMap.frame_entry atlas (σ frame))
                       (frames texture))) ts d in
    (forall k, dict_get r k
               = match last (filter (fun t => name t = k) ts) with
                 | Some t => Some (frame_entries σ atlas t)
                 | None => dict_get d k
                 end)
    /\ (NoDup (map fst d) -> NoDup (map fst r))
    /\ (NoDup (map name ts) ->
        (forall t, t ∈ ts -> name t ∉ map fst d) ->
        r = d ++ map (fun t => (name t, frame_entries σ atlas t)) ts).
Proof.
  induction ts as [| t ts IH]; intros d; simpl.
  - split_and!; [done | done |]. intros _ _. by rewrite app_nil_r.
  - destruct (IH (JsonTextureAtlasMap.dict_set d (name t)
                    (map (fun frame =>
                            JsonTextureAtlasMap.frame_entry atlas (σ frame))
                       (frames t)))) as (Hget & Hnd & Huniq).
    split_and!.
    + intros k. rewrite Hget, dict_get_set, filter_cons.
      destruct (decide (name t = k)) as [Hk | Hk]; [| done].
      rewrite last_cons. by destruct (last _).
    + intros Hd. apply Hnd. rewrite dict_set_keys.
      destruct (decide (name t ∈ map fst d)); [done |].
      apply NoDup_app. split_and!; [done | | apply NoDup_singleton].
      intros k Hk ->%list_elem_of_singleton. done.
    + intros Hnames Hfresh. apply NoDup_cons in Hnames as [Hnt Hnames].
      assert (name t ∉ map fst d) as Hd
        by (apply Hfresh, list_elem_of_here).
      rewrite Huniq; [| done |].
      * rewrite dict_set_fresh by done. by rewrite <- app_assoc.
      * intros t' Ht'. rewrite dict_set_keys, decide_False by done.
        rewrite not_elem_of_app. split.
        -- apply Hfresh. by apply list_elem_of_further.
        -- rewrite list_elem_of_singleton. intros Heq. apply Hnt.
           rewrite <- Heq. by apply list_elem_of_fmap_2.
Qed.

(** The JSON map has one key per distinct texture name, and the value under a
    name is the list of frame entries of the last texture of the atlas with
    that name: a later texture of the same name overwrites the earlier one. *)
Theorem json_last_texture_of_a_name_wins (σ : Store) (atlas : TextureAtlas)
    (k : list N) :
  dict_get (JsonTextureAtlasMap.map_value σ atlas) k
  = frame_entries σ atlas
    <$> last (filter (fun t => name t = k) (textures atlas))
  /\ NoDup (map fst (JsonTextureAtlasMap.map_value σ atlas)).
Proof.
  destruct (map_value_fold σ atlas (textures atlas) []) as (Hget & Hnd & _).
  split; [| apply Hnd; constructor].
  unfold JsonTextureAtlasMap.map_value. rewrite Hget.
  by destruct (last _).
Qed.

(** When the texture names are pairwise distinct, the JSON map has exactly
    one entry per texture, in the order of the atlas: the name and the list
    of frame entries of that texture. *)
Theorem json_one_entry_per_texture (σ : Store) (atlas : TextureAtlas) :
  NoDup (map name (textures atlas)) ->
  JsonTextureAtlasMap.map_value σ atlas
  = map (fun t => (name t, frame_entries σ atlas t)) (textures atlas).
Proof.
  intros Hnd.
  destruct (map_value_fold σ atlas (textures atlas) []) as (_ & _ & Huniq).
  unfold JsonTextureAtlasMap.map_value. rewrite Huniq; [done | done |].
  intros t _. apply not_elem_of_nil.
Qed.

Lemma json_one_entry_per_texture_witness :
  JsonTextureAtlasMap.map_value example_final_store example_final_atlas
  = map (fun t => (name t,
                   frame_entries example_final_store example_final_atlas t))
      (textures example_final_atlas).
Proof.
  apply (json_one_entry_per_texture example_final_store example_final_atlas).
  vm_compute.
  repeat (apply NoDup_cons; split;
          [rewrite ?elem_of_cons, elem_of_nil; intros H;
           repeat destruct H as [H | H]; discriminate || done |]).
  apply NoDup_nil_2.
Defined.

(** * Sizes of the binary map *)

Lemma utf8_encode_char_length (c : N) (b : list byte) :
  utf8_encode_char c = Some b -> (1 <= length b)%nat.
Proof.
  unfold utf8_encode_char.
  destruct (c <? 128)%N; [intros [= <-]; simpl; lia |].
  destruct (c <? 2048)%N; [intros [= <-]; simpl; lia |].
  destruct (c <? 65536)%N.
  { destruct (_ && _); [done | intros [= <-]; simpl; lia]. }
  destruct (c <? 1114112)%N; [intros [= <-]; simpl; lia | done].
Qed.

Lemma utf8_encode_length (s : list N) (enc : list byte) :
  utf8_encode s = Some enc -> (length s <= length enc)%nat.
Proof.
  revert enc. induction s as [| c s IH]; intros enc; [intros _; simpl; lia |].
  rewrite utf8_encode_cons.
  destruct (utf8_encode_char c) as [b |] eqn:Ec; [| done].
  destruct (utf8_encode s) as [e |]; [| done].
  intros [= <-]. specialize (IH e eq_refl). rewrite length_app. simpl.
  apply utf8_encode_char_length in Ec. lia.
Qed.

Lemma string_section_length (ts : list Texture) :
  forall b, BinaryTextureAtlasMap.string_section ts = Some b ->
            sum (map (fun t => len (name t) + 1) ts) <= len b.
Proof.
  induction ts as [| t ts IH]; intros b; simpl.
  - by intros [= <-].
  - destruct (utf8_encode (name t)) as [enc |] eqn:E; [| done]. simpl.
    destruct (BinaryTextureAtlasMap.string_section ts) as [b' |]; [| done].
    simpl. intros [= <-]. specialize (IH _ eq_refl).
    apply utf8_encode_length in E. unfold len, sum in *.
    rewrite length_app. simpl. lia.
Qed.

Lemma frame_section_length (σ : Store) (ts : list Texture) :
  forall b, BinaryTextureAtlasMap.frame_section σ ts = Some b ->
            len b = sum (map (fun t => len (frames t)) ts) * 16.
Proof.
  induction ts as [| t ts IH]; intros b; simpl.
  - by intros [= <-].
  - destruct (BinaryTextureAtlasMap.frames_bytes σ (frames t)) as [b0 |]
      eqn:E; [| done].
    simpl.
    destruct (BinaryTextureAtlasMap.frame_section σ ts) as [b' |]; [| done].
    simpl. intros [= <-]. specialize (IH _ eq_refl).
    destruct (frames_bytes_read _ _ _ E) as [Hlen _].
    unfold len, sum in *. rewrite length_app. simpl. lia.
Qed.

(** A binary map that was written starts with the magic "TEXA"; its header
    reads back as the atlas size, the number of textures and three sections
    that follow the 40-byte header one after the other (12 bytes per texture,
    [len(name) + 1] per name, 16 bytes per frame); the end of the last
    section never lies past the end of the file, and it is the end of the
    file when all names are ASCII. *)
Theorem binary_header_describes_file (σ : Store) (atlas : TextureAtlas)
    (bs : list byte) :
  BinaryTextureAtlasMap.write σ atlas = Some bs ->
  let n := len (textures atlas) in
  let names := sum (map (fun t => len (name t) + 1) (textures atlas)) in
  let nframes := sum (map (fun t => len (frames t)) (textures atlas)) in
  take 4 bs = BinaryTextureAtlasMap.magic
  /\ BinaryTextureAtlasMap.read_header bs
     = Some (BinaryTextureAtlasMap.mkHeader
               (atlas_width atlas) (atlas_height atlas) n
               40 (n * 12)
               (40 + n * 12) names
               (40 + n * 12 + names) (nframes * 16))
  /\ 40 + n * 12 + names + nframes * 16 <= len bs
  /\ (Forall (fun t => ascii_name (name t)) (textures atlas) ->
      len bs = 40 + n * 12 + names + nframes * 16).
Proof.
  unfold BinaryTextureAtlasMap.write.
  set (ts := textures atlas) in *.
  remember BinaryTextureAtlasMap.magic as mg eqn:Hmg.
  assert (length mg = 4%nat) as Lmg by (by subst mg).
  destruct (struct_pack _) as [hdr |] eqn:Hhdr; [| done]. simpl.
  destruct (BinaryTextureAtlasMap.texture_section ts 0 0) as [tex |] eqn:Htex;
    [| done].
  simpl.
  destruct (BinaryTextureAtlasMap.string_section ts) as [str |] eqn:Hstr;
    [| done].
  simpl.
  destruct (BinaryTextureAtlasMap.frame_section σ ts) as [frm |] eqn:Hfrm;
    [| done].
  simpl. intros [= <-].
  pose proof (struct_pack_length _ _ Hhdr) as Lhdr.
  destruct (texture_section_read _ _ _ _ Htex) as [Ltex _].
  pose proof (string_section_length _ _ Hstr) as Lstr.
  pose proof (frame_section_length _ _ _ Hfrm) as Lfrm.
  assert (len (mg ++ hdr ++ tex ++ str ++ frm)
          = 40 + len ts * 12 + len str + len frm) as Ltotal.
  { unfold len in *. rewrite !length_app. simpl in *. lia. }
  split_and!.
  - by rewrite take_app_length' by done.
  - subst mg. by apply header_read.
  - lia.
  - intros Hascii. destruct (string_section_read _ _ Hascii Hstr) as [Ls _].
    lia.
Qed.

Lemma binary_header_describes_file_witness :
  take 4 accent_bytes = BinaryTextureAtlasMap.magic
  /\ BinaryTextureAtlasMap.read_header accent_bytes
     = Some (BinaryTextureAtlasMap.mkHeader 1 2 2 40 24 64 4 68 32)
  /\ 100 <= len accent_bytes.
Proof.
  assert (BinaryTextureAtlasMap.write accent_store accent_atlas
          = Some accent_bytes) as E by (vm_compute; reflexivity).
  destruct (binary_header_describes_file accent_store accent_atlas
              accent_bytes E) as (Hm & Hh & Hl & _).
  split; [exact Hm |]. split; [exact Hh | exact Hl].
Defined.

(** * The fixed-size script *)

Lemma script_pack_all_seq (ts : list Texture) :
  forall atlas (σ σ' : Store) atlas',
    Script.pack_all atlas ts σ = Some (σ', atlas') ->
    pack_seq (region atlas) σ (concat (map frames ts))
    = Some (σ', region atlas')
    /\ textures atlas' = textures atlas ++ ts.
Proof.
  induction ts as [| t ts IH]; intros atlas σ σ' atlas'; simpl.
  - intros [= <- <-]. by rewrite app_nil_r.
  - unfold Script.pack.
    destruct (pack_frames (region atlas) (frames t) σ) as [[ok σ1] reg1] eqn:E.
    destruct ok; [| done].
    intros H. destruct (IH _ _ _ _ H) as [Hs Ht]. simpl in *.
    apply pack_frames_true in E. split.
    + by apply (pack_seq_compose _ _ _ _ _ _ _ E).
    + by rewrite Ht, <- app_assoc.
Qed.

(** The script and the package differ only in what happens when a texture
    does not fit: the script's loop over the textures finishes exactly when
    one pass of the package's loop packs every texture into the same atlas,
    and then both leave the same frame positions and the same atlas; where
    the package would grow the canvas (or raise), the script raises. *)
Theorem script_packs_what_one_pass_packs (ts : list Texture) :
  forall (atlas : TextureAtlas) (σ σ' : Store) (w h : Z)
         (atlas' : TextureAtlas),
    Script.pack_all atlas ts σ = Some (σ', atlas')
    <-> for_textures atlas ts σ w h = AllPacked σ' atlas'.
Proof.
  induction ts as [| t ts IH]; intros atlas σ σ' w h atlas'; simpl.
  - split; intros [= <- <-]; done.
  - unfold Script.pack, pack_texture.
    destruct (pack_frames (region atlas) (frames t) σ) as [[ok σ1] reg1].
    destruct ok; [apply IH |].
    split; [done |]. by destruct (grow _ _ _ _ _) as [[w' h'] |].
Qed.

(** Under [well_split] no occupant is wider or taller than the root, and the
    occupants' areas add up to at most the root's. *)
Lemma occupants_fit_root (σ : Store) (t : PackRegion) :
  well_split σ t ->
  Forall (fun q => fits (σ q) (rect_of t)) (occupant_refs t).
Proof.
  induction t as [r | r q s1 IH1 s2 IH2]; simpl; [constructor |].
  intros (Hqw & Hqh & R1 & R2 & W1 & W2).
  constructor; [unfold fits; lia |].
  apply Forall_app. split.
  - eapply Forall_impl; [by apply IH1 |]. rewrite R1. unfold fits. simpl.
    intros; lia.
  - eapply Forall_impl; [by apply IH2 |]. rewrite R2. unfold fits. simpl.
    intros; lia.
Qed.

Lemma occupants_area (σ : Store) (t : PackRegion) :
  well_split σ t -> non_negative (rect_of t) ->
  total_area (occupants σ t) <= area (rect_of t).
Proof.
  unfold occupants, non_negative.
  induction t as [r | r q s1 IH1 s2 IH2]; simpl.
  - intros _ [Hw Hh]. unfold total_area, area. simpl. nia.
  - intros (Hqw & Hqh & R1 & R2 & W1 & W2) [Hw Hh].
    specialize (IH1 W1). specialize (IH2 W2).
    rewrite R1 in IH1. rewrite R2 in IH2. simpl in IH1, IH2.
    specialize (IH1 ltac:(lia)). specialize (IH2 ltac:(lia)).
    change (area (σ q)
            + total_area (map σ (occupant_refs s1 ++ occupant_refs s2))
            <= area r).
    rewrite map_app, total_area_app. unfold area in *. simpl in *. nia.
Qed.

Lemma total_area_ext (σ σ' : Store) (l : list ref) :
  (forall q, width (σ' q) = width (σ q) /\ height (σ' q) = height (σ q)) ->
  total_area (map σ' l) = total_area (map σ l).
Proof.
  intros Hd. unfold total_area.
  induction l as [| q l IH]; simpl; [done |].
  rewrite IH. unfold area. by destruct (Hd q) as [-> ->].
Qed.

(** The script raises instead of writing an atlas whenever the frames cannot
    fit the square canvas for a reason of size alone: some frame is wider or
    taller than [size], or the areas of the frames add up to more than
    [size * size].  Frame sizes are assumed non-negative. *)
Theorem script_raises_when_frames_cannot_fit (size : Z) (ts : list Texture)
    (σ : Store) :
  Forall (fun f => non_negative (σ f)) (concat (map frames ts)) ->
  Exists (fun f => size < width (σ f) \/ size < height (σ f))
    (concat (map frames ts))
  \/ size * size < total_area (map σ (concat (map frames ts))) ->
  Script.main_pack size ts σ = None.
Proof.
  intros Hnn Hbig. unfold Script.main_pack.
  destruct (sorted_reverse _ ts) as [sorted |] eqn:Hs; [| done].
  apply sorted_reverse_stable in Hs as (Hperm & _ & _).
  apply concat_frames_perm in Hperm.
  destruct (Script.pack_all _ sorted σ) as [[σ' atlas'] |] eqn:E; [| done].
  exfalso.
  apply script_pack_all_seq in E as [Hseq _]. simpl in Hseq.
  pose proof (pack_seq_dims _ _ _ _ _ Hseq) as Hd.
  pose proof (pack_seq_rect_of _ _ _ _ _ Hseq) as Hr. simpl in Hr.
  pose proof (pack_seq_occupants _ _ _ _ _ Hseq) as Ho.
  simpl in Ho. rewrite app_nil_r, Hperm in Ho.
  assert (well_split σ' (region atlas')) as Hw.
  { eapply pack_seq_well_split; [| | exact Hseq]; [done |].
    by rewrite Hperm. }
  destruct Hbig as [Hex | Harea].
  - apply Exists_exists in Hex as (f & Hf & Hsize).
    pose proof (occupants_fit_root _ _ Hw) as Hfit.
    rewrite Ho, Hr, Forall_forall in Hfit.
    destruct (Hfit f Hf) as [Hfw Hfh]. simpl in Hfw, Hfh.
    destruct (Hd f) as [Hdw Hdh]. lia.
  - rewrite <- (total_area_ext σ σ' _ Hd) in Harea.
    rewrite <- (total_area_perm _ _ (Permutation_map σ' Ho)) in Harea.
    destruct (region atlas') as [r | r q s1 s2] eqn:Hreg.
    + unfold total_area in Harea. simpl in Harea. nia.
    + pose proof (occupants_area σ' (Occupied r q s1 s2) Hw) as Ha.
      simpl in Hr. subst r. unfold occupants in Ha.
      destruct Hw as (Hqw & Hqh & _). simpl in Hqw, Hqh.
      specialize (Ha ltac:(unfold non_negative; simpl; lia)).
      unfold area in Ha. cbn [rect_of width height] in Ha. lia.
Qed.

Lemma script_raises_when_frames_cannot_fit_witness :
  Script.main_pack 3 example_textures example_loaded_store = None.
Proof.
  apply (script_raises_when_frames_cannot_fit 3 example_textures
           example_loaded_store).
  - repeat constructor; vm_compute; discriminate.
  - left. apply Exists_cons_tl, Exists_cons_hd. left. vm_compute. done.
Defined.

(** When the script finishes, its atlas is the [size] x [size] canvas and
    lists the textures of the input in sorted order, each exactly once;
    every frame has the size reported for its image, lies inside the canvas
    and overlaps no other frame.  Frame sizes are assumed non-negative. *)
Theorem script_ends_with_a_valid_packing (specs : list texture_spec)
    (size : Z) (σ : Store) (atlas : TextureAtlas) :
  Forall (fun spec => Forall (fun d => 0 <= d.1 /\ 0 <= d.2) spec.2) specs ->
  Script.main_pack size (load_textures 0%nat specs empty_store).2
                        (load_textures 0%nat specs empty_store).1
  = Some (σ, atlas) ->
  canvas atlas = mkRect 0 0 size size
  /\ sorted_reverse
       (first_frame_perimeter (load_textures 0%nat specs empty_store).1)
       (load_textures 0%nat specs empty_store).2
     = Some (textures atlas)
  /\ map (texture_shape σ) (textures atlas) ≡ₚ specs
  /\ Forall (fun f => inside_box (σ f) (canvas atlas))
       (concat (map frames (textures atlas)))
  /\ pairwise_disjoint (map σ (concat (map frames (textures atlas)))).
Proof.
  intros Hpos.
  pose proof (load_textures_spec specs 0%nat empty_store) as Hload.
  destruct (load_textures 0%nat specs empty_store) as [σ0 ts].
  destruct Hload as (Hshape & Hframes & _). simpl.
  unfold Script.main_pack.
  destruct (sorted_reverse _ ts) as [sorted |] eqn:Hs; [| done].
  pose proof (sorted_reverse_stable _ _ _ Hs) as (Hperm & _ & _).
  intros H. apply script_pack_all_seq in H as [Hseq Htex].
  simpl in Hseq, Htex. subst sorted.
  pose proof (pack_seq_dims _ _ _ _ _ Hseq) as Hd.
  assert (NoDup (concat (map frames (textures atlas)))) as Hnd.
  { rewrite (concat_frames_perm _ _ Hperm), Hframes. apply NoDup_seq. }
  assert (Forall (fun q => non_negative (σ0 q))
            (concat (map frames (textures atlas)))) as Hnn.
  { rewrite (concat_frames_perm _ _ Hperm).
    clear -Hshape Hpos. subst specs.
    induction ts as [| t ts IH]; simpl; [constructor |].
    inversion Hpos as [| ? ? Ht Hts]; subst.
    apply Forall_app. split; [| by apply IH].
    simpl in Ht. rewrite Forall_fmap in Ht.
    eapply Forall_impl; [exact Ht |]. by intros f [? ?]. }
  destruct (pack_seq_invariants _ _ _ _ _ Hnd Hnn Hseq)
    as (Hr & Hw & Hp & Ho).
  assert (canvas atlas = mkRect 0 0 size size) as Hc
    by (unfold canvas, atlas_width, atlas_height; by rewrite Hr).
  split_and!.
  - done.
  - done.
  - assert (map (texture_shape σ) (textures atlas)
            = map (texture_shape σ0) (textures atlas))
      as -> by (apply map_ext; intros t; by apply texture_shape_ext).
    by rewrite Hperm, Hshape.
  - destruct (regions_inside_box _ _ Hw Hp) as [Hin _].
    by rewrite Ho, Hr, <- Hc in Hin.
  - destruct (tiles_of_invariants _ _ Hw Hp) as (_ & Hdj & _).
    unfold pieces, occupants in Hdj. apply pairwise_disjoint_app_l in Hdj.
    eapply pairwise_disjoint_perm; [| exact Hdj].
    by apply fmap_Permutation.
Qed.

Lemma script_ends_with_a_valid_packing_witness :
  script_example_run = Some (script_example_store, script_example_atlas)
  /\ canvas script_example_atlas = mkRect 0 0 8 8
  /\ sorted_reverse
       (first_frame_perimeter (load_textures 0%nat example_specs empty_store).1)
       (load_textures 0%nat example_specs empty_store).2
     = Some (textures script_example_atlas)
  /\ map (texture_shape script_example_store) (textures script_example_atlas)
     ≡ₚ example_specs
  /\ Forall (fun f => inside_box (script_example_store f)
                        (canvas script_example_atlas))
       (concat (map frames (textures script_example_atlas)))
  /\ pairwise_disjoint
       (map script_example_store
          (concat (map frames (textures script_example_atlas)))).
Proof.
  assert (script_example_run
          = Some (script_example_store, script_example_atlas)) as E
    by (vm_compute; reflexivity).
  split; [exact E |].
  apply (script_ends_with_a_valid_packing example_specs 8
           script_example_store script_example_atlas); [| exact E].
  repeat constructor; simpl; lia.
Defined.

(** * Regions as objects *)

Lemma objects_pack_false (t : Objects.PackRegion) (p : ref) :
  forall h h' t', Objects.pack t p h = (false, h', t') -> h' = h /\ t' = t.
Proof.
  induction t as [s | s q s1 IH1 s2 IH2]; intros h h' t'; simpl.
  - destruct (_ || _); [by intros [= <- <-] | done].
  - destruct (_ >? _).
    + destruct (Objects.pack s1 p h) as [[b1 h1] s1'] eqn:E1.
      destruct b1; [intros [=] |].
      apply IH1 in E1 as [-> ->].
      destruct (Objects.pack s2 p h) as [[b2 h2] s2'] eqn:E2.
      intros [= -> <- <-]. apply IH2 in E2 as [-> ->]. auto.
    + destruct (Objects.pack s2 p h) as [[b2 h2] s2'] eqn:E2.
      destruct b2; [intros [=] |].
      apply IH2 in E2 as [-> ->].
      destruct (Objects.pack s1 p h) as [[b1 h1] s1'] eqn:E1.
      intros [= -> <- <-]. apply IH1 in E1 as [-> ->]. auto.
Qed.

Lemma objects_pack_node s q s1 s2 p (h h' : Objects.Heap) t' :
  Objects.pack (Objects.Node s q s1 s2) p h = (true, h', t') ->
  (exists s1', Objects.pack s1 p h = (true, h', s1')
               /\ t' = Objects.Node s q s1' s2)
  \/ (exists s2', Objects.pack s2 p h = (true, h', s2')
                  /\ t' = Objects.Node s q s1 s2').
Proof.
  simpl. destruct (_ >? _).
  - destruct (Objects.pack s1 p h) as [[b1 h1] s1'] eqn:E1. destruct b1.
    + intros [= <- <-]. left. eauto.
    + apply objects_pack_false in E1 as [-> ->].
      destruct (Objects.pack s2 p h) as [[b2 h2] s2'] eqn:E2.
      intros [= -> <- <-]. right. eauto.
  - destruct (Objects.pack s2 p h) as [[b2 h2] s2'] eqn:E2. destruct b2.
    + intros [= <- <-]. right. eauto.
    + apply objects_pack_false in E2 as [-> ->].
      destruct (Objects.pack s1 p h) as [[b1 h1] s1'] eqn:E1.
      intros [= -> <- <-]. left. eauto.
Qed.

Lemma perm_rotate3 {A : Type} (a b c : A) (l : list A) :
  a :: b :: c :: l ≡ₚ b :: c :: a :: l.
Proof. etrans; [apply Permutation_swap | apply perm_skip, Permutation_swap]. Qed.

(** A successful [pack] allocates two objects, the new leaves; it writes the
    packable and these two, and turns one leaf into a node. *)
Lemma objects_pack_true (t : Objects.PackRegion) (p : ref) :
  forall h h' t', Objects.pack t p h = (true, h', t') ->
    Objects.next h' = S (S (Objects.next h))
    /\ (forall q, q <> p -> q <> Objects.next h -> q <> S (Objects.next h) ->
                  Objects.objects h' q = Objects.objects h q)
    /\ Objects.region_refs t'
       ≡ₚ Objects.next h :: S (Objects.next h) :: Objects.region_refs t
    /\ length (Objects.leaves t') = S (length (Objects.leaves t))
    /\ Objects.occupant_refs t' ≡ₚ p :: Objects.occupant_refs t.
Proof.
  induction t as [s | s q s1 IH1 s2 IH2]; intros h h' t' H.
  - simpl in H. destruct (_ || _); [done |]. injection H as <- <-.
    simpl. split_and!; try done.
    + intros q Hp H1 H2. by rewrite !fn_lookup_insert_ne.
    + apply perm_rotate3.
  - apply objects_pack_node in H as [(s1' & E & ->) | (s2' & E & ->)].
    + destruct (IH1 _ _ _ E) as (Hn & Hf & Hr & Hl & Ho).
      simpl. split_and!; try done.
      * rewrite Hr. simpl. apply perm_rotate3.
      * rewrite !length_app. lia.
      * rewrite Ho. simpl. apply Permutation_swap.
    + destruct (IH2 _ _ _ E) as (Hn & Hf & Hr & Hl & Ho).
      simpl. split_and!; try done.
      * rewrite Hr. rewrite <- !Permutation_middle. apply perm_rotate3.
      * rewrite !length_app. lia.
      * rewrite Ho. rewrite <- Permutation_middle. apply Permutation_swap.
Qed.

Lemma objects_pack_seq_app (ps1 ps2 : list ref) :
  forall t h h' t', Objects.pack_seq t h (ps1 ++ ps2) = Some (h', t') ->
    exists h1 t1, Objects.pack_seq t h ps1 = Some (h1, t1)
                  /\ Objects.pack_seq t1 h1 ps2 = Some (h', t').
Proof.
  induction ps1 as [| p ps1 IH]; intros t h h' t'; simpl; [eauto |].
  destruct (Objects.pack t p h) as [[b h1] t1] eqn:E.
  destruct b; [| done]. apply IH.
Qed.

Lemma objects_pack_seq_refs (ps : list ref) :
  forall t h h' t', Objects.pack_seq t h ps = Some (h', t') ->
    (Objects.next h <= Objects.next h')%nat
    /\ (forall s, s ∈ Objects.region_refs t -> s ∈ Objects.region_refs t')
    /\ (Forall (fun s => (s < Objects.next h)%nat) (Objects.region_refs t) ->
        NoDup (Objects.region_refs t) ->
        Forall (fun s => (s < Objects.next h')%nat) (Objects.region_refs t')
        /\ NoDup (Objects.region_refs t'))
    /\ length (Objects.leaves t')
       = (length ps + length (Objects.leaves t))%nat.
Proof.
  induction ps as [| p ps IH]; intros t h h' t'; simpl.
  - intros [= <- <-]. split_and!; auto.
  - destruct (Objects.pack t p h) as [[b h1] t1] eqn:E.
    destruct b; [| done]. intros H.
    destruct (IH _ _ _ _ H) as (Hn & Hin & Hnd & Hl).
    destruct (objects_pack_true _ _ _ _ _ E) as (Hn1 & _ & Hr & Hl1 & _).
    split_and!.
    + lia.
    + intros s Hs. apply Hin. rewrite Hr, !elem_of_cons. auto.
    + intros Hlt Hd. apply Hnd.
      * rewrite Hr, Hn1. repeat constructor; try lia.
        eapply Forall_impl; [exact Hlt |]. simpl. lia.
      * rewrite Hr.
        assert (forall k, (Objects.next h <= k)%nat ->
                          k ∉ Objects.region_refs t) as Hfresh.
        { intros k Hk Hin'. rewrite Forall_forall in Hlt.
          specialize (Hlt _ Hin'). lia. }
        apply NoDup_cons. split.
        -- rewrite not_elem_of_cons. split; [lia | apply Hfresh; lia].
        -- apply NoDup_cons. split; [apply Hfresh; lia | done].
    + rewrite Hl, Hl1. lia.
Qed.

(** ** [pack] is [Objects.pack] for packables that are not regions *)

Lemma rect_of_erase (σ : Store) (t : Objects.PackRegion) :
  rect_of (erase σ t) = σ (Objects.self_of t).
Proof. by destruct t. Qed.

Lemma erase_ext (σ σ' : Store) (t : Objects.PackRegion) :
  (forall s, s ∈ Objects.region_refs t -> σ' s = σ s) ->
  erase σ' t = erase σ t.
Proof.
  induction t as [s | s q s1 IH1 s2 IH2]; simpl; intros H.
  - rewrite H; [done | apply list_elem_of_here].
  - rewrite H by apply list_elem_of_here.
    rewrite IH1, IH2; [done | |]; intros s' Hs'; apply H;
      apply list_elem_of_further, elem_of_app; auto.
Qed.

Lemma erase_occupant_refs (σ : Store) (t : Objects.PackRegion) :
  occupant_refs (erase σ t) = Objects.occupant_refs t.
Proof.
  induction t as [s | s q s1 IH1 s2 IH2]; simpl; [done |].
  by rewrite IH1, IH2.
Qed.

Lemma erase_free_regions (σ : Store) (t : Objects.PackRegion) :
  map rect_of (get_free_regions (erase σ t)) = map σ (Objects.leaves t).
Proof.
  induction t as [s | s q s1 IH1 s2 IH2]; simpl; [done |].
  by rewrite !map_app, IH1, IH2.
Qed.

Lemma objects_pack_old (t : Objects.PackRegion) (p : ref)
    (h h' : Objects.Heap) (b : bool) (t' : Objects.PackRegion) :
  Objects.pack t p h = (b, h', t') ->
  forall u, u <> p -> (u < Objects.next h)%nat ->
            Objects.objects h' u = Objects.objects h u.
Proof.
  intros E u Hu Hlt. destruct b.
  - destruct (objects_pack_true _ _ _ _ _ E) as (_ & Hf & _).
    apply Hf; [done | lia | lia].
  - by apply objects_pack_false in E as [-> _].
Qed.

Lemma erase_pack_old (t : Objects.PackRegion) (p : ref)
    (h h' : Objects.Heap) (b : bool) (t' u : Objects.PackRegion) :
  Objects.pack t p h = (b, h', t') ->
  Forall (fun s => (s < Objects.next h)%nat) (Objects.region_refs u) ->
  p ∉ Objects.region_refs u ->
  erase (Objects.objects h') u = erase (Objects.objects h) u.
Proof.
  intros E Hlt Hp. apply erase_ext. intros s Hs.
  rewrite Forall_forall in Hlt.
  apply (objects_pack_old _ _ _ _ _ _ E); [| by apply Hlt].
  intros ->. done.
Qed.

(** When the packable is not a region of the tree, [Objects.pack] does to the
    tree and to the packable what [pack] does to the tree of rectangles read
    from the heap. *)
Lemma pack_erase (t : Objects.PackRegion) (p : ref) :
  forall (h h' : Objects.Heap) (b : bool) (t' : Objects.PackRegion)
         (σ : Store),
    Objects.pack t p h = (b, h', t') ->
    Forall (fun s => (s < Objects.next h)%nat) (Objects.region_refs t) ->
    p ∉ Objects.region_refs t' ->
    σ p = Objects.objects h p ->
    exists σ' : Store,
      pack (erase (Objects.objects h) t) p σ
      = (b, σ', erase (Objects.objects h') t')
      /\ σ' p = Objects.objects h' p
      /\ forall q, q <> p -> σ' q = σ q.
Proof.
  induction t as [s | s q s1 IH1 s2 IH2]; intros h h' b t' σ H Hlt Hp Hσ.
  - simpl in H |- *. rewrite Hσ.
    destruct (_ || _).
    + injection H as <- <- <-. exists σ. by split_and!.
    + injection H as <- <- <-. simpl in Hp, Hlt |- *.
      rewrite !not_elem_of_cons in Hp. destruct Hp as (Hps & Hp1 & Hp2 & _).
      inversion Hlt as [| ? ? Hs _]; subst.
      assert (forall (f : Store) a c u, u <> a -> (<[a := c]> f) u = f u)
        as Hne by (intros; by apply fn_lookup_insert_ne).
      repeat first [rewrite fn_lookup_insert | rewrite Hne by lia].
      eexists. split_and!; [reflexivity | |].
      * repeat first [rewrite fn_lookup_insert | rewrite Hne by lia]. done.
      * intros q' Hq'. by rewrite fn_lookup_insert_ne.
  - simpl in Hlt. inversion Hlt as [| ? ? Hs Hlt12]; subst.
    apply Forall_app in Hlt12 as [Hlt1 Hlt2].
    simpl in H |- *. rewrite !rect_of_erase.
    destruct (_ >? _).
    + destruct (Objects.pack s1 p h) as [[b1 h1] s1'] eqn:E1. destruct b1.
      * injection H as <- <- <-. simpl in Hp.
        rewrite not_elem_of_cons, not_elem_of_app in Hp.
        destruct Hp as (Hps & Hp1 & Hp2).
        destruct (IH1 _ _ _ _ σ E1 Hlt1 Hp1 Hσ) as (σ' & -> & Hσ'p & Hσ'q).
        exists σ'. split_and!; [| done | done]. simpl.
        rewrite (objects_pack_old _ _ _ _ _ _ E1 s) by done.
        by rewrite (erase_pack_old _ _ _ _ _ _ s2 E1).
      * pose proof (objects_pack_false _ _ _ _ _ E1) as [-> ->].
        destruct (Objects.pack s2 p h) as [[b2 h2] s2'] eqn:E2.
        injection H as <- <- <-. simpl in Hp.
        rewrite not_elem_of_cons, not_elem_of_app in Hp.
        destruct Hp as (Hps & Hp1 & Hp2).
        destruct (IH1 _ _ _ _ σ E1 Hlt1 Hp1 Hσ) as (σ1 & E1' & _ & _).
        pose proof (pack_false _ _ _ _ _ E1') as [-> _]. rewrite E1'.
        destruct (IH2 _ _ _ _ σ E2 Hlt2 Hp2 Hσ) as (σ' & -> & Hσ'p & Hσ'q).
        exists σ'. split_and!; [| done | done]. simpl.
        rewrite (objects_pack_old _ _ _ _ _ _ E2 s) by done.
        by rewrite (erase_pack_old _ _ _ _ _ _ s1 E2).
    + destruct (Objects.pack s2 p h) as [[b2 h2] s2'] eqn:E2. destruct b2.
      * injection H as <- <- <-. simpl in Hp.
        rewrite not_elem_of_cons, not_elem_of_app in Hp.
        destruct Hp as (Hps & Hp1 & Hp2).
        destruct (IH2 _ _ _ _ σ E2 Hlt2 Hp2 Hσ) as (σ' & -> & Hσ'p & Hσ'q).
        exists σ'. split_and!; [| done | done]. simpl.
        rewrite (objects_pack_old _ _ _ _ _ _ E2 s) by done.
        by rewrite (erase_pack_old _ _ _ _ _ _ s1 E2).
      * pose proof (objects_pack_false _ _ _ _ _ E2) as [-> ->].
        destruct (Objects.pack s1 p h) as [[b1 h1] s1'] eqn:E1.
        injection H as <- <- <-. simpl in Hp.
        rewrite not_elem_of_cons, not_elem_of_app in Hp.
        destruct Hp as (Hps & Hp1 & Hp2).
        destruct (IH2 _ _ _ _ σ E2 Hlt2 Hp2 Hσ) as (σ2 & E2' & _ & _).
        pose proof (pack_false _ _ _ _ _ E2') as [-> _]. rewrite E2'.
        destruct (IH1 _ _ _ _ σ E1 Hlt1 Hp1 Hσ) as (σ' & -> & Hσ'p & Hσ'q).
        exists σ'. split_and!; [| done | done]. simpl.
        rewrite (objects_pack_old _ _ _ _ _ _ E1 s) by done.
        by rewrite (erase_pack_old _ _ _ _ _ _ s2 E1).
Qed.

Lemma objects_pack_self (t : Objects.PackRegion) (p : ref)
    (h h' : Objects.Heap) (b : bool) (t' : Objects.PackRegion) :
  Objects.pack t p h = (b, h', t') -> Objects.self_of t' = Objects.self_of t.
Proof.
  destruct b.
  - destruct t as [s | s q s1 s2].
    + simpl. destruct (_ || _); [done |]. by intros [= <- <-].
    + intros [(s1' & _ & ->) | (s2' & _ & ->)]%objects_pack_node; done.
  - by intros [_ ->]%objects_pack_false.
Qed.

Lemma objects_pack_seq_self (ps : list ref) :
  forall t h h' t', Objects.pack_seq t h ps = Some (h', t') ->
    Objects.self_of t' = Objects.self_of t.
Proof.
  induction ps as [| p ps IH]; intros t h h' t'; simpl.
  - by intros [= <- <-].
  - destruct (Objects.pack t p h) as [[b h1] t1] eqn:E.
    destruct b; [| done]. intros H.
    by rewrite (IH _ _ _ _ H), (objects_pack_self _ _ _ _ _ _ E).
Qed.

(** A sequence of successful calls in which no packable is a region of the
    tree: [Objects.pack_seq] is [pack_seq] on the tree of rectangles, and
    the two stores agree on every object that is not a region. *)
Lemma pack_seq_erase (ps : list ref) :
  forall (t : Objects.PackRegion) (h h' : Objects.Heap)
         (t' : Objects.PackRegion) (σ : Store),
    Objects.pack_seq t h ps = Some (h', t') ->
    Forall (fun s => (s < Objects.next h)%nat) (Objects.region_refs t) ->
    NoDup (Objects.region_refs t) ->
    Forall (fun p => p ∉ Objects.region_refs t') ps ->
    (forall q, q ∉ Objects.region_refs t' -> σ q = Objects.objects h q) ->
    exists σ' : Store,
      pack_seq (erase (Objects.objects h) t) σ ps
      = Some (σ', erase (Objects.objects h') t')
      /\ forall q, q ∉ Objects.region_refs t' ->
                   σ' q = Objects.objects h' q.
Proof.
  induction ps as [| p ps IH]; intros t h h' t' σ; simpl.
  - intros [= <- <-] _ _ _ Hσ. by exists σ.
  - destruct (Objects.pack t p h) as [[b h1] t1] eqn:E.
    destruct b; [| done]. intros H Hlt Hnd Hps Hσ.
    inversion Hps as [| ? ? Hp Hps']; subst.
    destruct (objects_pack_seq_refs _ _ _ _ _ H) as (_ & Hsub & Hinv & _).
    destruct (objects_pack_true _ _ _ _ _ E) as (Hn1 & Hf & Hr & _).
    assert (p ∉ Objects.region_refs t1) as Hp1 by (intros Hin; auto).
    destruct (pack_erase _ _ _ _ _ _ σ E Hlt Hp1 (Hσ _ Hp))
      as (σ1 & -> & Hσ1p & Hσ1q).
    assert (Forall (fun s => (s < Objects.next h1)%nat)
              (Objects.region_refs t1)) as Hlt1.
    { rewrite Hr, Hn1. repeat constructor; try lia.
      eapply Forall_impl; [exact Hlt |]. simpl. lia. }
    assert (NoDup (Objects.region_refs t1)) as Hnd1.
    { rewrite Hr. rewrite Forall_forall in Hlt.
      assert (forall k, (Objects.next h <= k)%nat ->
                        k ∉ Objects.region_refs t) as Hfresh
        by (intros k Hk Hin; specialize (Hlt _ Hin); lia).
      apply NoDup_cons. split.
      - rewrite not_elem_of_cons. split; [lia | apply Hfresh; lia].
      - apply NoDup_cons. split; [apply Hfresh; lia | done]. }
    apply (IH _ _ _ _ σ1 H Hlt1 Hnd1 Hps').
    intros q Hq. destruct (decide (q = p)) as [-> | Hne]; [done |].
    rewrite Hσ1q, Hσ by done. symmetry. apply Hf; [done | |].
    + intros ->. apply Hq, Hsub. rewrite Hr. apply list_elem_of_here.
    + intros ->. apply Hq, Hsub. rewrite Hr.
      apply list_elem_of_further, list_elem_of_here.
Qed.

Lemma well_split_ext_on (σ σ' : Store) (t : PackRegion) :
  (forall q, q ∈ occupant_refs t -> σ' q = σ q) ->
  well_split σ t -> well_split σ' t.
Proof.
  induction t as [r | r q s1 IH1 s2 IH2]; simpl; [done |].
  intros Hs (Hqw & Hqh & R1 & R2 & W1 & W2).
  rewrite (Hs q) by apply list_elem_of_here.
  refine (conj Hqw (conj Hqh (conj R1 (conj R2 (conj _ _)))));
    [apply IH1 | apply IH2]; try done;
    intros q' Hq'; apply Hs, list_elem_of_further, elem_of_app; auto.
Qed.

(** What [pack_seq_erase] gives for a fresh root: the invariants of the tree
    of rectangles, and the pieces of the two trees are the same. *)
Lemma objects_pack_seq_invariants (r : ref) (h0 h : Objects.Heap)
    (ps : list ref) (t : Objects.PackRegion) :
  (r < Objects.next h0)%nat ->
  NoDup ps ->
  Forall (fun p => p ∉ Objects.region_refs t) ps ->
  Forall (fun p => non_negative (Objects.objects h0 p)) ps ->
  Objects.pack_seq (Objects.Leaf r) h0 ps = Some (h, t) ->
  let σ := Objects.objects h in
  rect_of (erase σ t) = Objects.objects h0 r
  /\ σ r = Objects.objects h0 r
  /\ well_split σ (erase σ t) /\ placed σ (erase σ t)
  /\ Objects.occupant_refs t ≡ₚ ps
  /\ Objects.pieces h t = pieces σ (erase σ t)
  /\ Forall (fun p => width (σ p) = width (Objects.objects h0 p)
                      /\ height (σ p) = height (Objects.objects h0 p)) ps.
Proof.
  intros Hr Hnd Hps Hnn H σ.
  destruct (pack_seq_erase _ _ _ _ _ (Objects.objects h0) H)
    as (σ1 & Hseq & Hagree); try done.
  { by repeat constructor. }
  { apply NoDup_singleton. }
  simpl in Hseq. fold σ in Hseq, Hagree.
  destruct (pack_seq_invariants _ _ _ _ _ Hnd Hnn Hseq)
    as (Hroot & Hw & Hp & Ho).
  rewrite Forall_forall in Hps.
  assert (forall q, q ∈ occupant_refs (erase σ t) -> σ q = σ1 q) as Hocc.
  { intros q Hq. symmetry. apply Hagree, Hps. by rewrite <- Ho. }
  rewrite erase_occupant_refs in Ho.
  split_and!.
  - done.
  - rewrite <- Hroot, rect_of_erase.
    by rewrite (objects_pack_seq_self _ _ _ _ _ H).
  - by apply (well_split_ext_on σ1).
  - by apply (placed_ext σ1).
  - done.
  - unfold Objects.pieces, pieces, occupants. fold σ.
    by rewrite erase_occupant_refs, erase_free_regions.
  - apply Forall_forall. intros p Hp'.
    rewrite <- (Hagree p) by auto.
    apply (pack_seq_dims _ _ _ _ _ Hseq).
Qed.

(** ** Free regions *)

Lemma objects_get_free_regions (t : Objects.PackRegion) (h : Objects.Heap) :
  Objects.get_free_regions t h = (Objects.leaves t, h, t).
Proof.
  induction t as [s | s q s1 IH1 s2 IH2]; simpl; [done |].
  by rewrite IH1, IH2.
Qed.

Lemma leaves_regions (t : Objects.PackRegion) (g : ref) :
  g ∈ Objects.leaves t <-> Objects.Leaf g ∈ Objects.regions t.
Proof.
  induction t as [s | s q s1 IH1 s2 IH2]; simpl.
  - rewrite !list_elem_of_singleton. split; [by intros -> | by intros [= ->]].
  - rewrite elem_of_cons, !elem_of_app, IH1, IH2. split; [auto |].
    intros [[=] | H]; done.
Qed.

Lemma leaves_sublist (t : Objects.PackRegion) :
  Objects.leaves t `sublist_of` Objects.region_refs t.
Proof.
  induction t as [s | s q s1 IH1 s2 IH2]; simpl; [done |].
  apply sublist_cons. by apply sublist_app.
Qed.

(** C10. After [n] successful [pack] calls on a fresh root, whatever objects
    were offered, [get_free_regions] returns [n + 1] regions; they are
    pairwise distinct objects, each of them is a region of the tree without
    occupant and without sub-regions, and every such region of the tree is
    returned; the call leaves the heap and the tree as they were. *)
Theorem free_regions_after_packs (r : ref) (h0 h : Objects.Heap)
    (ps : list ref) (t : Objects.PackRegion) :
  (r < Objects.next h0)%nat ->
  Objects.pack_seq (Objects.Leaf r) h0 ps = Some (h, t) ->
  exists gs : list ref,
    Objects.get_free_regions t h = (gs, h, t)
    /\ length gs = (length ps + 1)%nat
    /\ NoDup gs
    /\ forall g, g ∈ gs <-> Objects.Leaf g ∈ Objects.regions t.
Proof.
  intros Hr H. exists (Objects.leaves t).
  destruct (objects_pack_seq_refs _ _ _ _ _ H) as (_ & _ & Hinv & Hl).
  split_and!.
  - apply objects_get_free_regions.
  - rewrite Hl. simpl. lia.
  - eapply sublist_NoDup; [| apply leaves_sublist].
    apply Hinv; simpl; [by repeat constructor | apply NoDup_singleton].
  - apply leaves_regions.
Qed.

Lemma free_regions_after_packs_witness :
  exists (h : Objects.Heap) (t : Objects.PackRegion) (gs : list ref),
    Objects.pack_seq (Objects.Leaf 0%nat) example_heap [1%nat; 3%nat]
    = Some (h, t)
    /\ Objects.get_free_regions t h = (gs, h, t)
    /\ length gs = 3%nat
    /\ NoDup gs
    /\ forall g, g ∈ gs <-> Objects.Leaf g ∈ Objects.regions t.
Proof.
  eexists _, _.
  assert (forall A (P Q : A -> Prop) (p : Prop),
            p -> (p -> exists a, P a) -> exists a, p /\ P a) as Hex
    by (intros A P Q p Hp Hq; destruct (Hq Hp); eauto).
  apply (Hex _ _ (fun _ => True)); [reflexivity |].
  apply (free_regions_after_packs 0%nat example_heap _ [1%nat; 3%nat]).
  simpl. lia.
Defined.

(** ** The tiling invariant *)

(** C1, as amended.  Take a fresh root and any sequence of successful [pack]
    calls in which the rectangles offered are pairwise distinct objects of
    non-negative width and height, none of them a region of the tree.  At
    every intermediate state (after any prefix [ps1] of the calls) the root
    still has the rectangle it started with, and the occupants of the tree
    together with its free leaf regions tile that rectangle: their areas add
    up to its area, no two of them overlap, and each lies within it. *)
Theorem tiling_invariant (r : ref) (h0 h : Objects.Heap)
    (ps1 ps2 : list ref) (t : Objects.PackRegion) :
  (r < Objects.next h0)%nat ->
  NoDup (ps1 ++ ps2) ->
  Forall (fun p => non_negative (Objects.objects h0 p)) (ps1 ++ ps2) ->
  Objects.pack_seq (Objects.Leaf r) h0 (ps1 ++ ps2) = Some (h, t) ->
  Forall (fun p => p ∉ Objects.region_refs t) (ps1 ++ ps2) ->
  exists h1 t1,
    Objects.pack_seq (Objects.Leaf r) h0 ps1 = Some (h1, t1)
    /\ Objects.objects h1 r = Objects.objects h0 r
    /\ total_area (Objects.pieces h1 t1) = area (Objects.objects h0 r)
    /\ pairwise_disjoint (Objects.pieces h1 t1)
    /\ Forall (fun p => within p (Objects.objects h0 r))
         (Objects.pieces h1 t1).
Proof.
  intros Hr Hnd Hnn Hseq Hps.
  apply objects_pack_seq_app in Hseq as (h1 & t1 & H1 & H2).
  apply NoDup_app in Hnd as (Hnd & _ & _).
  apply Forall_app in Hnn as [Hnn _].
  apply Forall_app in Hps as [Hps _].
  destruct (objects_pack_seq_refs _ _ _ _ _ H2) as (_ & Hsub & _).
  assert (Forall (fun p => p ∉ Objects.region_refs t1) ps1) as Hps1.
  { eapply Forall_impl; [exact Hps |]. intros p Hp Hin. auto. }
  destruct (objects_pack_seq_invariants _ _ _ _ _ Hr Hnd Hps1 Hnn H1)
    as (Hroot & Hrr & Hw & Hp & _ & Hpieces & _).
  exists h1, t1. split; [done |]. split; [done |].
  rewrite Hpieces, <- Hroot.
  by apply tiles_of_invariants.
Qed.

Lemma tiling_invariant_witness :
  exists h1 t1,
    Objects.pack_seq (Objects.Leaf 0%nat) example_heap [1%nat; 2%nat]
    = Some (h1, t1)
    /\ Objects.objects h1 0%nat = mkRect 0 0 5 5
    /\ total_area (Objects.pieces h1 t1) = 25
    /\ pairwise_disjoint (Objects.pieces h1 t1)
    /\ Forall (fun p => within p (mkRect 0 0 5 5)) (Objects.pieces h1 t1).
Proof.
  eapply (tiling_invariant 0%nat example_heap _ [1%nat; 2%nat] []).
  4: reflexivity.
  - simpl. lia.
  - apply NoDup_cons. split; [rewrite list_elem_of_singleton; lia |].
    apply NoDup_singleton.
  - repeat constructor; simpl; lia.
  - repeat constructor; simpl; rewrite !elem_of_cons, elem_of_nil; lia.
Defined.

(** C1 as stated fails, and each condition of the amended claim is needed.
    With distinct objects of non-negative size the tiling is lost when a
    region of the tree is offered: after [root.pack(a)],
    [root.pack(root.subregion_1)] moves that region to (2, 0), where it is
    an occupant and still a free leaf.  With objects that are not regions it
    is lost when one object is offered twice (the two occupants coincide) or
    when an object has a negative width (the second sub-region then reaches
    back over the first occupant). *)
Lemma tiling_needs_its_preconditions :
  ~ (forall (r : ref) (h0 h : Objects.Heap) (ps : list ref)
            (t : Objects.PackRegion),
        (r < Objects.next h0)%nat ->
        NoDup ps ->
        Objects.pack_seq (Objects.Leaf r) h0 ps = Some (h, t) ->
        Forall (fun p => non_negative (Objects.objects h p)) ps ->
        total_area (Objects.pieces h t) = area (Objects.objects h0 r)
        /\ pairwise_disjoint (Objects.pieces h t))
  /\ ~ (forall (r : ref) (h0 h : Objects.Heap) (ps : list ref)
               (t : Objects.PackRegion),
           (r < Objects.next h0)%nat ->
           Forall (fun p => non_negative (Objects.objects h0 p)) ps ->
           Objects.pack_seq (Objects.Leaf r) h0 ps = Some (h, t) ->
           Forall (fun p => p ∉ Objects.region_refs t) ps ->
           total_area (Objects.pieces h t) = area (Objects.objects h0 r)
           /\ pairwise_disjoint (Objects.pieces h t))
  /\ ~ (forall (r : ref) (h0 h : Objects.Heap) (ps : list ref)
               (t : Objects.PackRegion),
           (r < Objects.next h0)%nat ->
           NoDup ps ->
           Objects.pack_seq (Objects.Leaf r) h0 ps = Some (h, t) ->
           Forall (fun p => p ∉ Objects.region_refs t) ps ->
           total_area (Objects.pieces h t) = area (Objects.objects h0 r)
           /\ pairwise_disjoint (Objects.pieces h t)).
Proof.
  assert (forall n m : nat, n <> m -> NoDup [n; m]) as Hnd2.
  { intros n m Hne. apply NoDup_cons.
    split; [by rewrite list_elem_of_singleton | apply NoDup_singleton]. }
  pose (summary := fun (ps : list ref)
                       (run : option (Objects.Heap * Objects.PackRegion)) =>
          match run with
          | Some (h, t) =>
              Some (Objects.pieces h t, map (Objects.objects h) ps,
                    Objects.region_refs t)
          | None => None
          end).
  split_and!; intros H.
  - assert (summary [1%nat; 3%nat]
              (Objects.pack_seq (Objects.Leaf 0%nat) example_heap
                 [1%nat; 3%nat])
            = Some ([mkRect 0 0 2 2; mkRect 2 0 2 3; mkRect 2 0 2 3;
                     mkRect 2 3 2 2; mkRect 4 0 1 5],
                    [mkRect 0 0 2 2; mkRect 2 0 2 3],
                    [0; 3; 4; 5; 6]%nat)) as Hrun
      by (vm_compute; reflexivity).
    destruct (Objects.pack_seq _ example_heap _) as [[h t] |] eqn:E;
      [| done].
    injection Hrun as Hpieces Hp1 Hp3 _.
    destruct (H 0%nat example_heap h [1%nat; 3%nat] t
                ltac:(simpl; lia) (Hnd2 1%nat 3%nat ltac:(lia)) E)
      as [_ Hd].
    { repeat constructor; rewrite ?Hp1, ?Hp3; simpl; lia. }
    rewrite Hpieces in Hd.
    inversion Hd as [| a l _ Hd1]; subst.
    inversion Hd1 as [| b l' Hb _]; subst.
    inversion Hb as [| c l'' Hbc _]; subst.
    apply Hbc. exists 2, 0. unfold inside. simpl. lia.
  - assert (summary [1%nat; 1%nat]
              (Objects.pack_seq (Objects.Leaf 0%nat) example_heap
                 [1%nat; 1%nat])
            = Some ([mkRect 2 0 2 2; mkRect 2 0 2 2; mkRect 0 2 2 3;
                     mkRect 2 2 2 3; mkRect 4 0 1 5],
                    [mkRect 2 0 2 2; mkRect 2 0 2 2],
                    [0; 3; 4; 5; 6]%nat)) as Hrun
      by (vm_compute; reflexivity).
    destruct (Objects.pack_seq _ example_heap _) as [[h t] |] eqn:E;
      [| done].
    injection Hrun as Hpieces _ _ Hrefs.
    destruct (H 0%nat example_heap h [1%nat; 1%nat] t
                ltac:(simpl; lia)
                ltac:(repeat constructor; simpl; lia) E) as [_ Hd].
    { rewrite Hrefs.
      repeat constructor; rewrite !elem_of_cons, elem_of_nil; lia. }
    rewrite Hpieces in Hd.
    inversion Hd as [| a l Ha _]; subst.
    inversion Ha as [| b l' Hab _]; subst.
    apply Hab. exists 2, 0. unfold inside. simpl. lia.
  - assert (summary [1%nat; 2%nat]
              (Objects.pack_seq (Objects.Leaf 0%nat) negative_heap
                 [1%nat; 2%nat])
            = Some ([mkRect 0 0 2 2; mkRect 2 0 (-1) 1; mkRect 0 2 2 3;
                     mkRect 2 1 (-1) 4; mkRect 1 0 4 5],
                    [mkRect 0 0 2 2; mkRect 2 0 (-1) 1],
                    [0; 3; 4; 5; 6]%nat)) as Hrun
      by (vm_compute; reflexivity).
    destruct (Objects.pack_seq _ negative_heap _) as [[h t] |] eqn:E;
      [| done].
    injection Hrun as Hpieces _ _ Hrefs.
    destruct (H 0%nat negative_heap h [1%nat; 2%nat] t
                ltac:(simpl; lia) (Hnd2 1%nat 2%nat ltac:(lia)) E)
      as [_ Hd].
    { rewrite Hrefs.
      repeat constructor; rewrite !elem_of_cons, elem_of_nil; lia. }
    rewrite Hpieces in Hd.
    inversion Hd as [| a l Ha _]; subst.
    rewrite Forall_forall in Ha.
    apply (Ha (mkRect 1 0 4 5)).
    + rewrite !elem_of_cons. auto 10.
    + exists 1, 0. unfold inside. simpl. lia.
Qed.

(** Every rectangle packed by a sequence of successful [pack] calls on a
    fresh root, the rectangles being distinct objects of non-negative size
    and none of them a region of the tree, is recorded exactly once as an
    occupant, lies inside the root by its coordinates, keeps the size it
    had, and overlaps none of the others. *)
Theorem packed_rects_inside_and_disjoint (r : ref) (h0 h : Objects.Heap)
    (ps : list ref) (t : Objects.PackRegion) :
  (r < Objects.next h0)%nat ->
  NoDup ps ->
  Forall (fun p => non_negative (Objects.objects h0 p)) ps ->
  Objects.pack_seq (Objects.Leaf r) h0 ps = Some (h, t) ->
  Forall (fun p => p ∉ Objects.region_refs t) ps ->
  Objects.occupant_refs t ≡ₚ ps
  /\ Forall (fun p =>
               inside_box (Objects.objects h p) (Objects.objects h0 r)
               /\ width (Objects.objects h p) = width (Objects.objects h0 p)
               /\ height (Objects.objects h p)
                  = height (Objects.objects h0 p)) ps
  /\ pairwise_disjoint (map (Objects.objects h) ps).
Proof.
  intros Hr Hnd Hnn H Hps.
  destruct (objects_pack_seq_invariants _ _ _ _ _ Hr Hnd Hps Hnn H)
    as (Hroot & _ & Hw & Hp & Ho & _ & Hdims).
  split; [done |]. split.
  - destruct (regions_inside_box _ _ Hw Hp) as [Hin _].
    rewrite erase_occupant_refs, Ho, Hroot in Hin.
    rewrite Forall_forall in Hin, Hdims |- *. intros p Hp'.
    split; [by apply Hin | by apply Hdims].
  - destruct (tiles_of_invariants _ _ Hw Hp) as (_ & Hd & _).
    unfold pieces, occupants in Hd. apply pairwise_disjoint_app_l in Hd.
    rewrite erase_occupant_refs in Hd.
    eapply pairwise_disjoint_perm; [| exact Hd].
    by apply Permutation_map.
Qed.

Lemma packed_rects_inside_and_disjoint_witness :
  exists h t,
    Objects.pack_seq (Objects.Leaf 0%nat) example_heap [1%nat; 2%nat]
    = Some (h, t)
    /\ Objects.occupant_refs t ≡ₚ [1%nat; 2%nat]
    /\ Forall (fun p =>
                 inside_box (Objects.objects h p) (mkRect 0 0 5 5)
                 /\ width (Objects.objects h p)
                    = width (Objects.objects example_heap p)
                 /\ height (Objects.objects h p)
                    = height (Objects.objects example_heap p))
         [1%nat; 2%nat]
    /\ pairwise_disjoint (map (Objects.objects h) [1%nat; 2%nat]).
Proof.
  eexists _, _. split; [reflexivity |].
  apply (packed_rects_inside_and_disjoint 0%nat example_heap _
           [1%nat; 2%nat]).
  - simpl. lia.
  - apply NoDup_cons. split; [rewrite list_elem_of_singleton; lia |].
    apply NoDup_singleton.
  - repeat constructor; simpl; lia.
  - reflexivity.
  - repeat constructor; simpl; rewrite !elem_of_cons, elem_of_nil; lia.
Defined.

(** * One growth step of the loop *)

Lemma for_textures_stops (ts : list Texture) :
  forall atlas (σ σ' : Store) w h w' h',
    for_textures atlas ts σ w h = Grown σ' w' h' ->
    exists pre t post (σ1 : Store) atlas1 atlas2,
      ts = pre ++ t :: post
      /\ for_textures atlas pre σ w h = AllPacked σ1 atlas1
      /\ pack_texture atlas1 t σ1 = (false, σ', atlas2)
      /\ grow σ' atlas2 t w h = Some (w', h').
Proof.
  induction ts as [| t ts IH]; intros atlas σ σ' w h w' h'; simpl; [done |].
  destruct (pack_texture atlas t σ) as [[ok σ1] atlas1] eqn:E.
  destruct ok.
  - intros H.
    destruct (IH _ _ _ _ _ _ _ H)
      as (pre & t' & post & σ2 & a1 & a2 & -> & Hpre & Hf & Hg).
    exists (t :: pre), t', post, σ2, a1, a2. simpl. rewrite E.
    by split_and!.
  - destruct (grow _ _ _ _ _) as [[w1 h1] |] eqn:Hg; [| done].
    intros [= <- <- <-].
    by exists [], t, ts, σ, atlas, atlas1.
Qed.

(** A pass of the loop over textures that all have a frame never raises
    ([max] always finds a free region).  When the pass ends by growing the
    canvas, it stopped at the first texture [t] whose [pack_texture] returned
    false, every texture before it having been packed, and the growth is
    taken from the first frame of [t]: either the width grows by that
    frame's width and the height stays, or the height grows by that frame's
    height and the width stays.  When that frame has a positive width and
    height, exactly one dimension has become larger.  No frame has changed
    size. *)
Theorem growth_step_grows_one_dimension (ts : list Texture)
    (atlas : TextureAtlas) (σ : Store) (w h : Z) :
  Forall (fun t => frames t <> []) ts ->
  match for_textures atlas ts σ w h with
  | AllPacked _ _ => True
  | Grown σ' w' h' =>
      (exists pre t post f0 (σ1 : Store) atlas1 atlas2,
          ts = pre ++ t :: post
          /\ for_textures atlas pre σ w h = AllPacked σ1 atlas1
          /\ pack_texture atlas1 t σ1 = (false, σ', atlas2)
          /\ head (frames t) = Some f0
          /\ ((w' = w + width (σ f0) /\ h' = h)
              \/ (w' = w /\ h' = h + height (σ f0)))
          /\ (positive (σ f0) ->
              (w < w' /\ h' = h) \/ (w' = w /\ h < h')))
      /\ forall q, width (σ' q) = width (σ q)
                   /\ height (σ' q) = height (σ q)
  | PassRaised => False
  end.
Proof.
  intros Hne.
  pose proof (for_textures_never_raises ts atlas σ w h Hne) as Hnr.
  pose proof (for_textures_dims ts atlas σ w h) as Hd.
  destruct (for_textures atlas ts σ w h) as [σ' a | σ' w' h' |] eqn:E;
    [done | | done].
  split; [| done].
  apply for_textures_stops in E
    as (pre & t & post & σ1 & a1 & a2 & -> & Hpre & Hfail & Hgrow).
  unfold grow in Hgrow.
  destruct (max_by _ _) as [B |]; [| done]. simpl in Hgrow.
  destruct (head (frames t)) as [f0 |] eqn:Hf0; [| done]. simpl in Hgrow.
  exists pre, t, post, f0, σ1, a1, a2.
  destruct (Hd f0) as [Hdw Hdh]. rewrite Hdw, Hdh in Hgrow.
  split_and!; try done.
  - destruct (_ <? _); injection Hgrow as <- <-; auto.
  - intros [Hpw Hph].
    destruct (_ <? _); injection Hgrow as <- <-; [left | right]; lia.
Qed.

Lemma growth_step_grows_one_dimension_witness :
  match for_textures (TextureAtlas_init 1 1) [two_frame_texture]
          two_frame_store 1 1 with
  | AllPacked _ _ => True
  | Grown σ' w' h' =>
      (exists pre t post f0 (σ1 : Store) atlas1 atlas2,
          [two_frame_texture] = pre ++ t :: post
          /\ for_textures (TextureAtlas_init 1 1) pre two_frame_store 1 1
             = AllPacked σ1 atlas1
          /\ pack_texture atlas1 t σ1 = (false, σ', atlas2)
          /\ head (frames t) = Some f0
          /\ ((w' = 1 + width (two_frame_store f0) /\ h' = 1)
              \/ (w' = 1 /\ h' = 1 + height (two_frame_store f0)))
          /\ (positive (two_frame_store f0) ->
              (1 < w' /\ h' = 1) \/ (w' = 1 /\ 1 < h')))
      /\ forall q, width (σ' q) = width (two_frame_store q)
                   /\ height (σ' q) = height (two_frame_store q)
  | PassRaised => False
  end.
Proof.
  apply (growth_step_grows_one_dimension [two_frame_texture]
           (TextureAtlas_init 1 1) two_frame_store 1 1).
  by repeat constructor.
Defined.
